(** * django_opensearch_dsl.documents: index lifecycle and bulk synchronisation

    A shallow embedding of [src/django_opensearch_dsl/documents.py].

    - Python [str] is [string]; a [dict] is a [gmap]; a [set] is a [gset].
    - The search-engine client, the relational store and the two bulk
      helpers of [opensearchpy.helpers] are collaborators of the module: they
      are modelled by small in-memory stand-ins whose behaviour is spelled out
      where they are defined.
    - Code that talks to the engine is written in a state-and-exception
      monad over the client; generators are modelled by their state and a
      [next] function, or by the list of what they yield when they are pure. *)

From Stdlib Require Import ZArith Lia Ascii.
From stdpp Require Import base option list sorting strings gmap fin_maps fin_sets.
From Equations Require Import Equations.

Local Open Scope Z_scope.
Local Open Scope nat_scope.

#[local] Set Warnings "-clear-no-such-hyp".

(* ===================================================================== *)
(** * Document classes *)
(* ===================================================================== *)

(** Values a preparer extracts from a model instance. *)
Inductive field_value :=
| FNone
| FInt (z : Z)
| FStr (s : string)
| FBool (b : bool).

(** A Django model instance: its primary key and its attributes. *)
Record Model := {
  pk : Z;
  attrs : gmap string field_value;
}.

(** What a [Document] subclass fixes: the name of its index
    ([cls._index._name]), the page size ([self.django.queryset_pagination]),
    the optional [Index.auto_refresh], the compiled preparers
    ([self._prepared_fields], as left by [init_prepare]) and the two hooks a
    subclass may override. *)
Record Document := {
  doc_name : string;
  _index_name : string;
  queryset_pagination : nat;
  auto_refresh : option bool;
  _prepared_fields : list (string * (Model → field_value));
  should_index_object : Model → bool;
  generate_id : Model → Z;
}.

(** The defaults of the base class: [should_index_object] returns [True],
    [generate_id] returns the instance's [pk]. *)
Definition default_should_index_object (obj : Model) : bool := true.
Definition default_generate_id (object_instance : Model) : Z := pk object_instance.

(* ===================================================================== *)
(** * Index names *)
(* ===================================================================== *)

Definition VERSION_NAME_SEPARATOR : string := "--".

(** Python truthiness of an optional string: [None] and the empty string
    are falsy. *)
Definition truthy (s : option string) : bool :=
  match s with
  | None => false
  | Some s => negb (String.eqb s EmptyString)
  end.

(** [Document.get_index_name] *)
Definition get_index_name (cls : Document) (suffix : option string) : string :=
  let name := _index_name cls in
  match suffix with
  | Some s => if truthy suffix then name +:+ VERSION_NAME_SEPARATOR +:+ s else name
  | None => name
  end.

(* ===================================================================== *)
(** * The search-engine client *)
(* ===================================================================== *)

(** The engine holds concrete indices, each with the set of aliases that
    point at it: the shape of the dictionary [indices.get] returns. *)
Abbreviation index_store := (gmap string (gset string)).

Inductive alias_action :=
| Add (index alias : string)
| Remove (index alias : string).

(** Requests that change the engine, in the order they are sent. *)
Inductive request :=
| ReqCreate (index : string)
| ReqDelete (index : string)
| ReqUpdateAliases (actions : list alias_action)
| ReqPutMapping (index : string).

(** What a call against the client can raise: the engine's refusals, and
    the [KeyError] of a response that lacks the key it is read at. *)
Inductive engine_error :=
| IndexNotFound (name : string)
| ResourceAlreadyExists (name : string)
| InvalidAliasName (name : string)
| AliasesNotFound (name : string)
| KeyError (key : string).

Inductive outcome (A : Type) :=
| Ok (a : A)
| Raised (e : engine_error).
Arguments Ok {A} a.
Arguments Raised {A} e.

Record client := {
  store : index_store;
  requests : list request;
}.

(** Index expressions: [*] stands for any run of characters, every other
    character for itself. *)
Fixpoint glob_match (p s : string) : bool :=
  match p with
  | EmptyString => match s with EmptyString => true | String _ _ => false end
  | String c p' =>
      if Ascii.eqb c "*"%char then
        (fix star (s : string) : bool :=
           glob_match p' s ||
           match s with EmptyString => false | String _ s' => star s' end) s
      else
        match s with
        | EmptyString => false
        | String d s' => Ascii.eqb c d && glob_match p' s'
        end
  end.

(** All alias names in use. *)
Definition alias_names (st : index_store) : gset string :=
  ⋃ (snd <$> map_to_list st).

(** The concrete indices an alias points at. *)
Definition alias_holders (alias : string) (st : index_store) : gset string :=
  dom (filter (λ kv, alias ∈ kv.2) st).

(** [indices.exists(index=name)]: the name resolves, as an index or as an
    alias. *)
Definition store_exists (name : string) (st : index_store) : bool :=
  bool_decide (name ∈ dom st) || bool_decide (name ∈ alias_names st).

(** [indices.exists_alias(index=index, name=alias)] *)
Definition store_exists_alias (index alias : string) (st : index_store) : bool :=
  match st !! index with
  | Some al => bool_decide (alias ∈ al)
  | None => false
  end.

(** [indices.get(index=pattern).keys()]: the names of the concrete indices
    matching the expression, in no particular order. *)
Definition store_get (pattern : string) (st : index_store) : list string :=
  filter (λ name, glob_match pattern name = true) (map_to_list st).*1.

(** [indices.create(index=name)]: refused when the name is taken. *)
Definition store_create (name : string) (st : index_store) : outcome index_store :=
  if store_exists name st then Raised (ResourceAlreadyExists name)
  else Ok (<[name := ∅]> st).

(** [indices.get_settings(index=name)]: the response is keyed by the
    concrete indices the name resolves to. *)
Definition store_get_settings (name : string) (st : index_store) : list string :=
  if bool_decide (name ∈ dom st) then [name]
  else elements (alias_holders name st).

(** [indices.put_mapping(index=name, body=mappings)]: the store keeps no
    mappings, so an accepted push leaves it as it is. *)
Definition store_put_mapping (name : string) (st : index_store) : outcome index_store :=
  if store_exists name st then Ok st else Raised (IndexNotFound name).

(** [indices.delete(index=name)]: only a concrete index can be deleted; its
    aliases go with it. *)
Definition store_delete (name : string) (st : index_store) : outcome index_store :=
  match st !! name with
  | Some _ => Ok (delete name st)
  | None => Raised (IndexNotFound name)
  end.

Definition apply_alias_action (st : index_store) (a : alias_action) : outcome index_store :=
  match a with
  | Add index alias =>
      match st !! index with
      | None => Raised (IndexNotFound index)
      | Some al =>
          if bool_decide (alias ∈ dom st) then Raised (InvalidAliasName alias)
          else Ok (<[index := {[alias]} ∪ al]> st)
      end
  | Remove index alias =>
      match st !! index with
      | None => Raised (IndexNotFound index)
      | Some al =>
          if bool_decide (alias ∈ al) then Ok (<[index := al ∖ {[alias]}]> st)
          else Raised (AliasesNotFound alias)
      end
  end.

(** [indices.update_aliases(body={"actions": actions})]: the actions are
    applied in order, all or nothing. *)
Fixpoint store_update_aliases (actions : list alias_action) (st : index_store)
  : outcome index_store :=
  match actions with
  | [] => Ok st
  | a :: rest =>
      match apply_alias_action st a with
      | Ok st' => store_update_aliases rest st'
      | Raised e => Raised e
      end
  end.

(** ** Code running against a client *)

(** A computation reads and changes the client and either returns or
    raises; what was done before an exception stays done. *)
Definition Eng (A : Type) : Type := client → outcome A * client.

Definition eng_ret {A} (a : A) : Eng A := λ c, (Ok a, c).

Definition eng_bind {A B} (m : Eng A) (k : A → Eng B) : Eng B :=
  λ c, match m c with
       | (Ok a, c') => k a c'
       | (Raised e, c') => (Raised e, c')
       end.

Notation "x ←ᴱ m ; k" := (eng_bind m (λ x, k))
  (at level 20, m at level 100, k at level 200, right associativity,
   format "x  ←ᴱ  m ;  '/' k").
Notation "m ;;ᴱ k" := (eng_bind m (λ _, k))
  (at level 100, k at level 200, right associativity).

(** A query: answered from the store, nothing changes. *)
Definition query {A} (f : index_store → A) : Eng A :=
  λ c, (Ok (f (store c)), c).

(** A changing request: logged when sent, applied when the engine accepts. *)
Definition send (r : request) (f : index_store → outcome index_store) : Eng unit :=
  λ c, let log := requests c ++ [r] in
       match f (store c) with
       | Ok st' => (Ok tt, {| store := st'; requests := log |})
       | Raised e => (Raised e, {| store := store c; requests := log |})
       end.

Definition indices_get (pattern : string) : Eng (list string) := query (store_get pattern).
Definition indices_exists (name : string) : Eng bool := query (store_exists name).
Definition indices_exists_alias (index alias : string) : Eng bool :=
  query (store_exists_alias index alias).
Definition indices_create (name : string) : Eng unit := send (ReqCreate name) (store_create name).
Definition indices_delete (name : string) : Eng unit := send (ReqDelete name) (store_delete name).
Definition indices_update_aliases (actions : list alias_action) : Eng unit :=
  send (ReqUpdateAliases actions) (store_update_aliases actions).
Definition indices_get_settings (name : string) : Eng (list string) :=
  query (store_get_settings name).
Definition indices_put_mapping (name : string) : Eng unit :=
  send (ReqPutMapping name) (store_put_mapping name).

(** [raise e] *)
Definition eng_raise {A} (e : engine_error) : Eng A := λ c, (Raised e, c).

(* ===================================================================== *)
(** * Index generations and the alias *)
(* ===================================================================== *)

(** Python's [sorted] on strings: code-point order. *)
Definition sorted (names : list string) : list string := merge_sort String.le names.

(** [Document.get_all_indices] *)
Definition get_all_indices (cls : Document) : Eng (list string) :=
  names ←ᴱ indices_get (_index_name cls +:+ VERSION_NAME_SEPARATOR +:+ "*");
  eng_ret (sorted names).

(** The [for] loop of [get_active_index]: the first index holding the alias;
    falling off the end returns [None]. *)
Fixpoint first_with_alias (alias : string) (indices : list string) : Eng (option string) :=
  match indices with
  | [] => eng_ret None
  | index :: rest =>
      held ←ᴱ indices_exists_alias index alias;
      if held then eng_ret (Some index) else first_with_alias alias rest
  end.

(** [Document.get_active_index] *)
Definition get_active_index (cls : Document) : Eng (option string) :=
  indices ←ᴱ get_all_indices cls;
  first_with_alias (_index_name cls) indices.

(** The batch [migrate] builds (lines 103-114): the add action, with a
    remove action inserted in front when an active index was found. *)
Definition actions_on_aliases (cls : Document) (suffix : option string)
    (active_index : option string) : list alias_action :=
  let index_name := get_index_name cls suffix in
  let actions := [Add index_name (_index_name cls)] in
  match active_index with
  | Some active => Remove active (_index_name cls) :: actions
  | None => actions
  end.

(** [Document.migrate] *)
Definition migrate (cls : Document) (suffix : option string) : Eng unit :=
  active_index ←ᴱ get_active_index cls;
  let actions := actions_on_aliases cls suffix active_index in
  (if Nat.eqb (length actions) 1
   then (bare ←ᴱ indices_exists (_index_name cls);
         if bare then indices_delete (_index_name cls) else eng_ret tt)
   else eng_ret tt) ;;ᴱ
  indices_update_aliases actions.

(** [opensearch_dsl.Document.init(index=name)], that is [Index.save] on the
    named index.  When the name does not resolve yet the index is created.
    When it does, the index is brought up to date instead: its settings are
    read, looked up under the name itself in the response (a [KeyError]
    when the name is an alias, the response being keyed by the concrete
    index), and the mappings of the class are pushed.  The store keeps
    neither settings nor mappings: the case modelled is the one where the
    index has the settings the class declares, so that no settings are
    pushed, and where the engine accepts the mappings, as for a generation
    that was created from this class. *)
Definition dsl_init (name : string) : Eng unit :=
  present ←ᴱ indices_exists name;
  if negb present then indices_create name
  else
    current_settings ←ᴱ indices_get_settings name;
    if bool_decide (name ∈ current_settings) then indices_put_mapping name
    else eng_raise (KeyError name).

(** [Document.init]. [now] is [datetime.now().strftime("%Y%m%d%H%M%S%f")],
    read by the caller. *)
Definition init (cls : Document) (suffix : option string) (now : string) : Eng unit :=
  let suffix := if truthy suffix then suffix else Some now in
  let index_name := get_index_name cls suffix in
  dsl_init index_name ;;ᴱ
  present ←ᴱ indices_exists (_index_name cls);
  if negb present then migrate cls suffix else eng_ret tt.

(* ===================================================================== *)
(** * The indexing queryset *)
(* ===================================================================== *)

(** A queryset: the rows it evaluates to, in the order the relational store
    returns them, and whether it has been sliced ([qs.query.is_sliced]). *)
Record QuerySet := {
  rows : list Model;
  is_sliced : bool;
}.

Definition pk_le (a b : Model) : Prop := (pk a ≤ pk b)%Z.

#[global] Instance pk_le_dec : RelDecision pk_le.
Proof. intros a b. unfold pk_le. apply _. Defined.

#[global] Instance pk_le_total : Total pk_le.
Proof. intros a b. unfold pk_le. lia. Qed.

Definition qs_filter (q : Model → bool) (qs : QuerySet) : QuerySet :=
  {| rows := filter (λ m, q m = true) (rows qs); is_sliced := is_sliced qs |}.
Definition qs_exclude (q : Model → bool) (qs : QuerySet) : QuerySet :=
  {| rows := filter (λ m, q m = false) (rows qs); is_sliced := is_sliced qs |}.
(** [qs[:count]] *)
Definition qs_limit (count : nat) (qs : QuerySet) : QuerySet :=
  {| rows := take count (rows qs); is_sliced := true |}.
(** [qs.order_by("pk")] *)
Definition qs_order_by_pk (qs : QuerySet) : QuerySet :=
  {| rows := merge_sort pk_le (rows qs); is_sliced := is_sliced qs |}.
(** [qs[start:stop]], evaluated: one query against the store. *)
Definition qs_slice (start stop : nat) (qs : QuerySet) : list Model :=
  take (stop - start) (drop start (rows qs)).

(** [Document.get_queryset]. [table] is [self.django.model.objects.all()]. *)
Definition get_queryset (table : list Model)
    (filter_ exclude : option (Model → bool)) (count : option nat) : QuerySet :=
  let qs := {| rows := table; is_sliced := false |} in
  let qs := match filter_ with Some q => qs_filter q qs | None => qs end in
  let qs := match exclude with Some q => qs_exclude q qs | None => qs end in
  let qs := match count with Some n => qs_limit n qs | None => qs end in
  qs.

(** The [while done < count] loop of [get_indexing_queryset]: what it yields
    and the slices [(i, i + chunk_size)] it pulls, or [None] when [fuel]
    iterations do not finish it. *)
Fixpoint indexing_loop (fuel : nat) (qs : QuerySet) (chunk_size count i done : nat)
  : option (list Model * list (nat * nat)) :=
  match fuel with
  | 0 => None
  | S fuel' =>
      if done <? count then
        let page := qs_slice i (i + chunk_size) qs in
        match indexing_loop fuel' qs chunk_size count
                (Nat.min (i + chunk_size) count) (done + length page) with
        | Some (objs, pulls) => Some (page ++ objs, (i, i + chunk_size) :: pulls)
        | None => None
        end
      else Some ([], [])
  end.

(** [Document.get_indexing_queryset] with [verbose=False]; the progress
    lines of the verbose mode go to [stdout] only. *)
Definition get_indexing_queryset (self : Document) (table : list Model)
    (filter_ exclude : option (Model → bool)) (count : option nat) (fuel : nat)
  : option (list Model * list (nat * nat)) :=
  let chunk_size := queryset_pagination self in
  let qs := get_queryset table filter_ exclude count in
  let qs := if negb (is_sliced qs) then qs_order_by_pk qs else qs in
  let count := length (rows qs) in
  indexing_loop fuel qs chunk_size count 0 0.

(* ===================================================================== *)
(** * Bulk actions *)
(* ===================================================================== *)

(** Values of a bulk action dictionary. *)
Inductive entry :=
| EStr (s : string)
| EId (z : Z)
| ENone
| EMapping (d : gmap string field_value).

Abbreviation descriptor := (gmap string entry).

(** [Document.prepare]: the dict comprehension over the compiled preparers. *)
Definition prepare (self : Document) (instance : Model) : gmap string field_value :=
  foldl (λ data p, <[p.1 := p.2 instance]> data) ∅ (_prepared_fields self).

(** [Document._prepare_action] *)
Definition _prepare_action (self : Document) (object_instance : Model)
    (action : string) (index_name : option string) : descriptor :=
  <[(if negb (String.eqb action "update") then "_source" else "doc") :=
      (if negb (String.eqb action "delete")
       then EMapping (prepare self object_instance) else ENone)]>
  (<["_id" := EId (generate_id self object_instance)]>
  (<["_index" := EStr (match index_name with
                       | Some n => if truthy index_name then n else _index_name self
                       | None => _index_name self
                       end)]>
  (<["_op_type" := EStr action]> ∅))).

(** [Document._get_actions]: what the generator yields. *)
Fixpoint _get_actions (self : Document) (object_list : list Model)
    (action : string) (index_name : option string) : list descriptor :=
  match object_list with
  | [] => []
  | object_instance :: rest =>
      if String.eqb action "delete" || should_index_object self object_instance
      then _prepare_action self object_instance action index_name
             :: _get_actions self rest action index_name
      else _get_actions self rest action index_name
  end.

(* ===================================================================== *)
(** * Bulk submission *)
(* ===================================================================== *)

(** What is handed to a bulk helper as [actions]: a list, or a generator
    object, which is shared by reference and can be consumed once.  [g] is
    the generator's address in the world below. *)
Inductive iterable :=
| IterList (items : list descriptor)
| IterGen (g : nat).

(** Keyword arguments the helpers receive; [None] is a keyword that was
    not given. *)
Record bulk_kwargs := {
  refresh : option bool;
  chunk_size : option nat;
  raise_on_error : option bool;
}.

(** [kwargs.setdefault("chunk_size", n)] *)
Definition setdefault_chunk_size (n : nat) (kwargs : bulk_kwargs) : bulk_kwargs :=
  match chunk_size kwargs with
  | Some _ => kwargs
  | None => {| refresh := refresh kwargs; chunk_size := Some n;
               raise_on_error := raise_on_error kwargs |}
  end.

(** The helpers' own defaults: chunks of 500 actions, and an exception when
    the engine refuses an item. *)
Definition chunk_size_of (kwargs : bulk_kwargs) : nat := default 500 (chunk_size kwargs).
Definition raises_on_error (kwargs : bulk_kwargs) : bool :=
  default true (raise_on_error kwargs).

(** The response of a bulk helper: how many items succeeded, and the items
    that failed. *)
Definition response : Type := nat * list descriptor.

(** How a bulk call ends: it returns a response, or [BulkIndexError] leaves
    it, carrying the items the engine refused. *)
Inductive bulk_outcome :=
| Returned (r : response)
| BulkIndexError (errors : list descriptor).

(** A [post_index] notification, with the keyword arguments of
    [post_index.send]. *)
Record signal := {
  sender : string;
  instance : Document;
  actions : iterable;
  sig_response : response;
}.

Inductive helper_call :=
| CallBulk (kwargs : bulk_kwargs)
| CallParallelBulk (kwargs : bulk_kwargs).

(** The world around the bulk executor: the live generators with what each
    has left to yield, the helper calls made, the writes that reached the
    engine and the notifications sent, each in order. *)
Record world := {
  generators : list (list descriptor);
  helper_calls : list helper_call;
  writes : list descriptor;
  signals : list signal;
}.

Definition set_generators (gs : list (list descriptor)) (w : world) : world :=
  {| generators := gs; helper_calls := helper_calls w;
     writes := writes w; signals := signals w |}.
Definition add_helper_call (c : helper_call) (w : world) : world :=
  {| generators := generators w; helper_calls := helper_calls w ++ [c];
     writes := writes w; signals := signals w |}.
Definition add_write (a : descriptor) (w : world) : world :=
  {| generators := generators w; helper_calls := helper_calls w;
     writes := writes w ++ [a]; signals := signals w |}.
(** [post_index.send(...)] *)
Definition post_index_send (s : signal) (w : world) : world :=
  {| generators := generators w; helper_calls := helper_calls w;
     writes := writes w; signals := signals w ++ [s] |}.

(** Calling a generator function: a new generator object. *)
Definition new_generator (items : list descriptor) (w : world) : iterable * world :=
  (IterGen (length (generators w)), set_generators (generators w ++ [items]) w).

(** An iterator over an iterable: a list gets a cursor of its own, a
    generator is its own iterator. *)
Inductive iterator :=
| ItList (rest : list descriptor)
| ItGen (g : nat).

Definition iter (it : iterable) : iterator :=
  match it with
  | IterList items => ItList items
  | IterGen g => ItGen g
  end.

(** What an iterator has left. *)
Definition pending (it : iterator) (w : world) : list descriptor :=
  match it with
  | ItList rest => rest
  | ItGen g => default [] (generators w !! g)
  end.

(** [next(it)]; [None] is [StopIteration]. *)
Definition next (it : iterator) (w : world) : option (descriptor * iterator * world) :=
  match it with
  | ItList [] => None
  | ItList (a :: rest) => Some (a, ItList rest, w)
  | ItGen g =>
      match generators w !! g with
      | Some (a :: rest) => Some (a, ItGen g, set_generators (<[g := rest]> (generators w)) w)
      | _ => None
      end
  end.

Lemma next_pending it w a it' w' :
  next it w = Some (a, it', w') → pending it w = a :: pending it' w'.
Proof.
  destruct it as [[|b rest]|g]; simpl; try discriminate.
  - intros [= <- <- <-]. reflexivity.
  - destruct (generators w !! g) as [[|b rest]|] eqn:Hg; try discriminate.
    intros [= <- <- <-]. simpl.
    rewrite list_lookup_insert_eq; [reflexivity|].
    eapply lookup_lt_Some; eassumption.
Qed.

(** A value together with the equation that names it. *)
Definition inspect {A : Type} (x : A) : {y : A | x = y} := exist _ x eq_refl.

(** Up to [n] further actions read from the source. *)
Fixpoint take_more (n : nat) (it : iterator) (w : world)
  : list descriptor * iterator * world :=
  match n with
  | 0 => ([], it, w)
  | S n' =>
      match next it w with
      | None => ([], it, w)
      | Some (a, it', w') =>
          let '(rest, it'', w'') := take_more n' it' w' in (a :: rest, it'', w'')
      end
  end.

(** The next chunk the helpers cut from the action stream: the first action
    always, then further ones until the chunk has [chunk_size] of them or
    the stream ends (a [chunk_size] of 0 is never reached, so the chunk takes
    the whole stream).  [None] when the stream has ended.  Left out: the
    helpers' limit on the bytes of a chunk, and that they find a chunk full
    on reading the action after it, which they keep for the next chunk. *)
Definition read_chunk (kwargs : bulk_kwargs) (it : iterator) (w : world)
  : option (list descriptor * iterator * world) :=
  match next it w with
  | None => None
  | Some (a, it1, w1) =>
      let room := match chunk_size_of kwargs with
                  | 0 => length (pending it1 w1)
                  | S n => n
                  end in
      let '(rest, it2, w2) := take_more room it1 w1 in
      Some (a :: rest, it2, w2)
  end.

(** One bulk request: every action of the chunk reaches the engine. *)
Definition send_chunk (chunk : list descriptor) (w : world) : world :=
  foldl (λ w a, add_write a w) w chunk.

Lemma take_more_pending n it w :
  pending it w = (take_more n it w).1.1 ++ pending (take_more n it w).1.2 (take_more n it w).2.
Proof.
  revert it w. induction n as [|n IH]; intros it w; simpl; [reflexivity|].
  destruct (next it w) as [[[a it'] w']|] eqn:Hn; [|reflexivity].
  rewrite (next_pending _ _ _ _ _ Hn). specialize (IH it' w').
  destruct (take_more n it' w') as [[rest it''] w'']. simpl in *. by rewrite IH.
Qed.

Lemma read_chunk_pending kwargs it w x :
  read_chunk kwargs it w = Some x →
  pending it w = x.1.1 ++ pending x.1.2 x.2 ∧ 0 < length x.1.1.
Proof.
  unfold read_chunk. destruct (next it w) as [[[a it1] w1]|] eqn:Hn; [|discriminate].
  set (room := match chunk_size_of kwargs with 0 => _ | S n => n end).
  pose proof (take_more_pending room it1 w1) as Hp.
  destruct (take_more room it1 w1) as [[rest it2] w2]. simpl in Hp.
  intros [= <-]. simpl. rewrite (next_pending _ _ _ _ _ Hn), Hp. split; [reflexivity | lia].
Qed.

Lemma send_chunk_generators chunk w : generators (send_chunk chunk w) = generators w.
Proof.
  revert w. induction chunk as [|a chunk IH]; intros w; [reflexivity|].
  unfold send_chunk in *. simpl. rewrite IH. reflexivity.
Qed.

Lemma send_chunk_pending chunk it w : pending it (send_chunk chunk w) = pending it w.
Proof. destruct it; simpl; [reflexivity|]. by rewrite send_chunk_generators. Qed.

Section BulkExecutor.

(** The engine's verdict on each item. *)
Variable item_ok : descriptor → bool.

(** [DODConfig.auto_refresh_enabled()] *)
Variable auto_refresh_enabled : bool.

Definition accepted (chunk : list descriptor) : list descriptor :=
  filter (λ a, item_ok a = true) chunk.
Definition refused (chunk : list descriptor) : list descriptor :=
  filter (λ a, item_ok a = false) chunk.

(** ** The helpers of [opensearchpy.helpers]

    Both cut the action stream into chunks and send each chunk to the engine
    as one request.  When the engine has refused items of a chunk and
    [raise_on_error] is on, which it is unless the caller turns it off,
    [BulkIndexError] is raised with the refused items of that chunk, and
    what was left of the stream is not read. *)

(** [helpers.bulk]: runs when called, chunk after chunk, counting the items
    that succeeded and collecting the ones that failed. *)
Equations? bulk_chunks (kwargs : bulk_kwargs) (it : iterator) (w : world)
    (success : nat) (errors : list descriptor) : bulk_outcome * world
  by wf (length (pending it w)) lt :=
  bulk_chunks kwargs it w success errors with inspect (read_chunk kwargs it w) := {
    | exist _ (Some x) Hn with inspect (raises_on_error kwargs && negb (forallb item_ok x.1.1)) := {
      | exist _ true _ => (BulkIndexError (refused x.1.1), send_chunk x.1.1 x.2)
      | exist _ false _ =>
          bulk_chunks kwargs x.1.2 (send_chunk x.1.1 x.2)
            (success + length (accepted x.1.1)) (errors ++ refused x.1.1) }
    | exist _ None _ => (Returned (success, errors), w) }.
Proof.
  rewrite send_chunk_pending.
  destruct (read_chunk_pending _ _ _ _ Hn) as [Hp Hlen]. simpl in Hp, Hlen.
  rewrite Hp, length_app. lia.
Qed.

Definition helpers_bulk (kwargs : bulk_kwargs) (actions : iterable) (w : world)
  : bulk_outcome * world :=
  bulk_chunks kwargs (iter actions) (add_helper_call (CallBulk kwargs) w) 0 [].

(** [helpers.parallel_bulk] returns a generator: nothing is read from
    [actions] and nothing reaches the engine until the generator is
    advanced.  It then yields the verdicts of one chunk after the other; a
    chunk with refused items yields nothing and raises instead.  The threads
    of the helper's pool are not modelled: the chunks are taken up one after
    the other. *)
Record parallel_bulk_generator := {
  pb_source : iterator;
  pb_kwargs : bulk_kwargs;
  pb_ready : list (bool * descriptor);
}.

Definition helpers_parallel_bulk (kwargs : bulk_kwargs) (actions : iterable) (w : world)
  : parallel_bulk_generator * world :=
  ({| pb_source := iter actions; pb_kwargs := kwargs; pb_ready := [] |},
   add_helper_call (CallParallelBulk kwargs) w).

(** What advancing the generator comes to. *)
Inductive pb_step :=
| PbYield (item : bool * descriptor) (gen : parallel_bulk_generator) (w : world)
| PbStopIteration
| PbBulkIndexError (errors : list descriptor) (w : world).

Definition pb_next (gen : parallel_bulk_generator) (w : world) : pb_step :=
  match pb_ready gen with
  | item :: ready =>
      PbYield item {| pb_source := pb_source gen; pb_kwargs := pb_kwargs gen;
                      pb_ready := ready |} w
  | [] =>
      match read_chunk (pb_kwargs gen) (pb_source gen) w with
      | None => PbStopIteration
      | Some (chunk, it', w') =>
          let w' := send_chunk chunk w' in
          if raises_on_error (pb_kwargs gen) && negb (forallb item_ok chunk)
          then PbBulkIndexError (refused chunk) w'
          else
            match (λ a, (item_ok a, a)) <$> chunk with
            | item :: ready =>
                PbYield item {| pb_source := it'; pb_kwargs := pb_kwargs gen;
                                pb_ready := ready |} w'
            | [] => PbStopIteration
            end
      end
  end.

Lemma pb_next_measure gen w item gen' w' :
  pb_next gen w = PbYield item gen' w' →
  length (pending (pb_source gen') w') + length (pb_ready gen')
  < length (pending (pb_source gen) w) + length (pb_ready gen).
Proof.
  unfold pb_next. destruct (pb_ready gen) as [|i ready] eqn:Hr.
  - destruct (read_chunk (pb_kwargs gen) (pb_source gen) w) as [[[chunk it'] w1]|] eqn:Hc;
      [|discriminate].
    destruct (read_chunk_pending _ _ _ _ Hc) as [Hp Hlen]. simpl in Hp, Hlen.
    destruct (raises_on_error (pb_kwargs gen) && negb (forallb item_ok chunk));
      [discriminate|].
    destruct chunk as [|a chunk]; [discriminate|]. rewrite fmap_cons.
    intros [= <- <- <-]. cbn [pb_source pb_ready].
    rewrite send_chunk_pending, Hp, length_fmap, length_app.
    destruct it'; simpl; lia.
  - intros [= <- <- <-]. simpl. lia.
Qed.

(** [deque(gen, maxlen=0)]: advance the generator until it stops or raises,
    keeping nothing.  [None] when it stopped, the errors raised otherwise. *)
Equations? deque_maxlen0 (gen : parallel_bulk_generator) (w : world)
  : option (list descriptor) * world
  by wf (length (pending (pb_source gen) w) + length (pb_ready gen)) lt :=
  deque_maxlen0 gen w with inspect (pb_next gen w) := {
    | exist _ (PbYield item gen' w') Hn => deque_maxlen0 gen' w'
    | exist _ PbStopIteration _ => (None, w)
    | exist _ (PbBulkIndexError errors w') _ => (Some errors, w') }.
Proof. apply (pb_next_measure _ _ _ _ _ Hn). Qed.

(** [Document.bulk]: an exception of the helper leaves the method before
    the notification is sent. *)
Definition bulk (self : Document) (actions : iterable) (kwargs : bulk_kwargs) (w : world)
  : bulk_outcome * world :=
  match helpers_bulk kwargs actions w with
  | (Returned response, w) =>
      let w := post_index_send {| sender := doc_name self; instance := self;
                                  actions := actions; sig_response := response |} w in
      (Returned response, w)
  | (BulkIndexError errors, w) => (BulkIndexError errors, w)
  end.

(** [Document.parallel_bulk] *)
Definition parallel_bulk (self : Document) (actions : iterable) (kwargs : bulk_kwargs)
    (w : world) : bulk_outcome * world :=
  let kwargs := setdefault_chunk_size (queryset_pagination self) kwargs in
  let '(bulk_actions, w) := helpers_parallel_bulk kwargs actions w in
  match deque_maxlen0 bulk_actions w with
  | (None, w) => (Returned (1, []), w)
  | (Some errors, w) => (BulkIndexError errors, w)
  end.

(** [Document._bulk] *)
Definition _bulk (self : Document) (actions : iterable) (parallel : bool)
    (kwargs : bulk_kwargs) (w : world) : bulk_outcome * world :=
  if parallel then parallel_bulk self actions kwargs w
  else bulk self actions kwargs w.

(** The first argument of [update]: a model instance, or an iterable of
    them (a list, a queryset, a generator of instances). *)
Inductive thing :=
| AModel (m : Model)
| AnIterable (objs : list Model).

(** [Document.update].  [refresh] is the keyword argument ([None] when not
    given); [parallel] and [chunk_size] are what may arrive in [**kwargs],
    every other keyword of the helpers, [raise_on_error] among them, being
    left to the helper's default. *)
Definition update (self : Document) (thing : thing) (action : string)
    (index_suffix : option string) (refresh : option bool)
    (parallel : bool) (chunk_size : option nat) (w : world) : bulk_outcome * world :=
  let refresh :=
    match refresh with
    | Some r => r
    | None => default auto_refresh_enabled (auto_refresh self)
    end in
  let index_name :=
    if truthy index_suffix then Some (get_index_name self index_suffix) else None in
  let object_list :=
    match thing with
    | AModel m => [m]
    | AnIterable objs => objs
    end in
  let '(actions, w) := new_generator (_get_actions self object_list action index_name) w in
  _bulk self actions parallel
    {| refresh := Some refresh; chunk_size := chunk_size; raise_on_error := None |} w.

End BulkExecutor.

(* ===================================================================== *)
(** * From model fields to OpenSearch fields *)
(* ===================================================================== *)

(** Django's model field classes: the ones the mapping table names, and any
    other class, a subclass of one of them included, known by its name. *)
Module models.
Inductive field_class :=
| AutoField | BigAutoField | BigIntegerField | BooleanField | CharField
| DateField | DateTimeField | DecimalField | EmailField | FileField
| FilePathField | FloatField | ImageField | IntegerField | NullBooleanField
| PositiveIntegerField | PositiveSmallIntegerField | SlugField
| SmallIntegerField | TextField | TimeField | URLField | UUIDField
| Other (qualname : string).

#[global] Instance field_class_eq_dec : EqDecision field_class.
Proof. solve_decision. Defined.
End models.

(** The field classes of [django_opensearch_dsl.fields] the table uses. *)
Module fields.
Inductive field_class :=
| IntegerField | LongField | BooleanField | TextField | DateField
| DoubleField | FileField | KeywordField | ShortField.

#[global] Instance field_class_eq_dec : EqDecision field_class.
Proof. solve_decision. Defined.
End fields.

(** An OpenSearch field built as [FieldClass(attr=field_name)]. *)
Record os_field := {
  os_class : fields.field_class;
  attr : string;
}.

(** The dictionary [model_field_class_to_field_class], entry by entry. *)
Definition model_field_class_to_field_class
  : list (models.field_class * fields.field_class) :=
  [ (models.AutoField, fields.IntegerField);
    (models.BigAutoField, fields.LongField);
    (models.BigIntegerField, fields.LongField);
    (models.BooleanField, fields.BooleanField);
    (models.CharField, fields.TextField);
    (models.DateField, fields.DateField);
    (models.DateTimeField, fields.DateField);
    (models.DecimalField, fields.DoubleField);
    (models.EmailField, fields.TextField);
    (models.FileField, fields.FileField);
    (models.FilePathField, fields.KeywordField);
    (models.FloatField, fields.DoubleField);
    (models.ImageField, fields.FileField);
    (models.IntegerField, fields.IntegerField);
    (models.NullBooleanField, fields.BooleanField);
    (models.PositiveIntegerField, fields.IntegerField);
    (models.PositiveSmallIntegerField, fields.ShortField);
    (models.SlugField, fields.KeywordField);
    (models.SmallIntegerField, fields.ShortField);
    (models.TextField, fields.TextField);
    (models.TimeField, fields.LongField);
    (models.URLField, fields.TextField);
    (models.UUIDField, fields.KeywordField) ].

(** [d[key]] on a dictionary given by its entries: the last entry for the
    key counts, [None] is [KeyError]. *)
Fixpoint dict_get {K V : Type} `{EqDecision K} (d : list (K * V)) (key : K) : option V :=
  match d with
  | [] => None
  | (k, v) :: rest =>
      match dict_get rest key with
      | Some v' => Some v'
      | None => if decide (k = key) then Some v else None
      end
  end.

Inductive ModelFieldNotMappedError := ModelFieldNotMapped (message : string).

(** [Document.to_field].  [model_field_class] is [model_field.__class__]. *)
Definition to_field (field_name : string) (model_field_class : models.field_class)
  : os_field + ModelFieldNotMappedError :=
  match dict_get model_field_class_to_field_class model_field_class with
  | Some field_class => inl {| os_class := field_class; attr := field_name |}
  | None =>
      inr (ModelFieldNotMapped
             ("Cannot convert model field " +:+ field_name +:+ " to an Opensearch field!"))
  end.

(* ===================================================================== *)
(** * Compiling the preparers *)
(* ===================================================================== *)

(** A field declared on the document class (an entry of [self._fields]).
    [is_dod] is [isinstance(field, fields.DODField)], [_path] the attribute
    path of the field, and [extract] what the field class does in
    [get_value_from_instance], as a function of the path it reads. *)
Record Field := {
  is_dod : bool;
  _path : list string;
  extract : list string → Model → option Model → field_value;
}.

(** [field.get_value_from_instance(instance, field_value_to_ignore)] *)
Definition get_value_from_instance (field : Field) (instance : Model)
    (field_value_to_ignore : option Model) : field_value :=
  extract field (_path field) instance field_value_to_ignore.

(** [field._path = path] *)
Definition set_path (path : list string) (field : Field) : Field :=
  {| is_dod := is_dod field; _path := path; extract := extract field |}.

(** What a [Document] subclass declares: its fields, in the order of
    [_fields.items()], and its preparer methods, looked up by the name of
    the field they are named after ([prepare_<name>_with_related] takes the
    instance and [related_to_ignore], [prepare_<name>] the instance). *)
Record Declaration := {
  decl_doc_name : string;
  decl_index_name : string;
  decl_queryset_pagination : nat;
  decl_auto_refresh : option bool;
  _fields : list (string * Field);
  prepare_with_related : gmap string (Model → option Model → field_value);
  prepare_plain : gmap string (Model → field_value);
  decl_should_index_object : Model → bool;
  decl_generate_id : Model → Z;
}.

(** The loop of [init_prepare] over [index_fields.items()]. *)
Fixpoint init_prepare_loop (decl : Declaration) (_related_instance_to_ignore : option Model)
    (index_fields : list (string * Field)) : list (string * Field * (Model → field_value)) :=
  match index_fields with
  | [] => []
  | (name, field) :: rest =>
      if negb (is_dod field) then
        init_prepare_loop decl _related_instance_to_ignore rest
      else
        let field := match _path field with [] => set_path [name] field | _ :: _ => field end in
        let fn :=
          match prepare_with_related decl !! name with
          | Some prep_func => λ instance, prep_func instance _related_instance_to_ignore
          | None =>
              match prepare_plain decl !! name with
              | Some prep_func => prep_func
              | None => λ instance,
                  get_value_from_instance field instance _related_instance_to_ignore
              end
          end in
        (name, field, fn) :: init_prepare_loop decl _related_instance_to_ignore rest
  end.

(** [Document.init_prepare] *)
Definition init_prepare (decl : Declaration) (_related_instance_to_ignore : option Model)
  : list (string * Field * (Model → field_value)) :=
  init_prepare_loop decl _related_instance_to_ignore (_fields decl).

(** [Document.__init__]: the instance keeps the compiled preparers; [prepare]
    reads the name and the callable of each. *)
Definition new_document (decl : Declaration) (related_instance_to_ignore : option Model)
  : Document :=
  {| doc_name := decl_doc_name decl;
     _index_name := decl_index_name decl;
     queryset_pagination := decl_queryset_pagination decl;
     auto_refresh := decl_auto_refresh decl;
     _prepared_fields := (λ p, (p.1.1, p.2)) <$> init_prepare decl related_instance_to_ignore;
     should_index_object := decl_should_index_object decl;
     generate_id := decl_generate_id decl |}.

(* ===================================================================== *)
(** * Vocabulary of the statements *)
(* ===================================================================== *)

(** A base name with a wildcard character in it. *)
Fixpoint has_wildcard (s : string) : bool :=
  match s with
  | EmptyString => false
  | String c s' => Ascii.eqb c "*"%char || has_wildcard s'
  end.

(** The generations of a document class: what [get_all_indices] returns. *)
Definition generations (cls : Document) (st : index_store) : list string :=
  sorted (store_get (_index_name cls +:+ VERSION_NAME_SEPARATOR +:+ "*") st).

(** The loop of [get_active_index], read off the store. *)
Fixpoint first_holder (alias : string) (st : index_store) (indices : list string)
  : option string :=
  match indices with
  | [] => None
  | index :: rest =>
      if store_exists_alias index alias st then Some index
      else first_holder alias st rest
  end.


(** [index] holds [alias] and no other index does. *)
Definition only_holder (alias index : string) (st : index_store) : Prop :=
  (∃ al, st !! index = Some al ∧ alias ∈ al) ∧
  (∀ i al, i ≠ index → st !! i = Some al → alias ∉ al).

(** The callable [init_prepare] picks for a field. *)
Definition resolved_preparer (decl : Declaration) (ign : option Model) (name : string)
    (field : Field) (instance : Model) : field_value :=
  match prepare_with_related decl !! name with
  | Some prep_func => prep_func instance ign
  | None =>
      match prepare_plain decl !! name with
      | Some prep_func => prep_func instance
      | None =>
          extract field (match _path field with [] => [name] | path => path end)
            instance ign
      end
  end.

(** The value of [refresh] that [update] hands on: the argument, else the
    [auto_refresh] of the document's [Index], else the process-wide
    setting. *)
Definition resolved_refresh (auto_refresh_enabled : bool) (self : Document)
    (refresh : option bool) : bool :=
  match refresh with
  | Some r => r
  | None =>
      match auto_refresh self with
      | Some r => r
      | None => auto_refresh_enabled
      end
  end.

(** The number of dashes in a name. *)
Fixpoint dashes (s : string) : nat :=
  match s with
  | EmptyString => 0
  | String c s' => (if Ascii.eqb c "-"%char then 1 else 0) + dashes s'
  end.

(** A record passes an optional [Q] object: no [Q] lets everything pass. *)
Definition passes (q : option (Model → bool)) (m : Model) : bool :=
  match q with
  | Some f => f m
  | None => true
  end.

(** A record is hit by an optional [Q] object: no [Q] hits nothing. *)
Definition hit_by (q : option (Model → bool)) (m : Model) : bool :=
  match q with
  | Some f => f m
  | None => false
  end.

(** The queryset [get_indexing_queryset] paginates: ordered by primary key
    unless it is sliced. *)
Definition indexing_queryset (table : list Model)
    (filter_ exclude : option (Model → bool)) (count : option nat) : QuerySet :=
  let qs := get_queryset table filter_ exclude count in
  if negb (is_sliced qs) then qs_order_by_pk qs else qs.

(** The number of pages of size [P] that cover [N] records. *)
Definition ceil_div (N P : nat) : nat := (N + P - 1) / P.

(* ===================================================================== *)
(** * Running examples *)
(* ===================================================================== *)

Module Examples.

(** A document class with one indexed field, [title], that leaves out the
    instance whose primary key is 2. *)
Definition article_document (name : string) (page : nat) : Document :=
  {| doc_name := "ArticleDocument";
     _index_name := name;
     queryset_pagination := page;
     auto_refresh := None;
     _prepared_fields := [("title", λ m, default FNone (attrs m !! "title"))];
     should_index_object := λ m, bool_decide (pk m ≠ 2%Z);
     generate_id := default_generate_id |}.

Definition article (key : Z) (title : string) : Model :=
  {| pk := key; attrs := {["title" := FStr title]} |}.

Definition a1 : Model := article 1 "one".
Definition a2 : Model := article 2 "two".
Definition a3 : Model := article 3 "three".

Definition empty_client : client := {| store := ∅; requests := [] |}.

Definition client_of (st : index_store) : client := {| store := st; requests := [] |}.

Definition empty_world : world :=
  {| generators := []; helper_calls := []; writes := []; signals := [] |}.

Definition no_kwargs : bulk_kwargs :=
  {| refresh := None; chunk_size := None; raise_on_error := None |}.

(** An engine that accepts every item, and one that refuses the items
    whose [_id] is [z]. *)
Definition accepts_all (a : descriptor) : bool := true.
Definition refuses_id (z : Z) (a : descriptor) : bool :=
  match a !! "_id" with
  | Some (EId i) => negb (Z.eqb i z)
  | _ => true
  end.

(** A document class that overrides no hook. *)
Definition plain_document (name : string) (page : nat) : Document :=
  {| doc_name := "PlainDocument";
     _index_name := name;
     queryset_pagination := page;
     auto_refresh := Some false;
     _prepared_fields := [("title", λ m, default FNone (attrs m !! "title"))];
     should_index_object := default_should_index_object;
     generate_id := default_generate_id |}.

(** A field that reads the attribute its path starts with. *)
Definition attribute_field (dod : bool) (path : list string) : Field :=
  {| is_dod := dod;
     _path := path;
     extract := λ path m _,
       match path with
       | [] => FNone
       | a :: _ => default FNone (attrs m !! a)
       end |}.

(** A declaration with three indexed fields and one that is no [DODField]:
    [title] is read off the instance, [slug] has a [prepare_slug], [author]
    has a [prepare_author_with_related]. *)
Definition article_declaration : Declaration :=
  {| decl_doc_name := "ArticleDocument";
     decl_index_name := "idx";
     decl_queryset_pagination := 2;
     decl_auto_refresh := None;
     _fields := [("title", attribute_field true []);
                 ("slug", attribute_field true ["title"]);
                 ("raw", attribute_field false []);
                 ("author", attribute_field true [])];
     prepare_with_related :=
       {["author" := λ _ ign, match ign with Some _ => FNone | None => FStr "ann" end]};
     prepare_plain := {["slug" := λ m, FInt (pk m)]};
     decl_should_index_object := default_should_index_object;
     decl_generate_id := default_generate_id |}.

End Examples.

(* ===================================================================== *)
(** * Index names and the listing of generations *)
(* ===================================================================== *)

Lemma append_cons (c : ascii) (s t : string) : String c s +:+ t = String c (s +:+ t).
Proof. reflexivity. Qed.

Lemma append_nil (t : string) : EmptyString +:+ t = t.
Proof. reflexivity. Qed.

(** An expression that starts with a literal part matches only names
    starting with that part. *)
Lemma glob_match_literal (p q s : string) :
  has_wildcard p = false →
  glob_match (p +:+ q) s = true →
  ∃ r, s = p +:+ r ∧ glob_match q r = true.
Proof.
  revert s. induction p as [|c p IH]; intros s Hw Hm.
  - exists s. split; [reflexivity | exact Hm].
  - simpl in Hw. apply orb_false_iff in Hw as [Hc Hp].
    rewrite append_cons in Hm. simpl in Hm. rewrite Hc in Hm.
    destruct s as [|d s]; [discriminate|].
    apply andb_true_iff in Hm as [Hcd Hm].
    apply Ascii.eqb_eq in Hcd as <-.
    destruct (IH s Hp Hm) as (r & -> & Hr).
    exists r. split; [reflexivity | exact Hr].
Qed.

Lemma glob_match_star_skip (c : ascii) (p s : string) :
  glob_match (String "*" p) s = true → glob_match (String "*" p) (String c s) = true.
Proof.
  simpl. intros H. apply orb_true_iff. right. exact H.
Qed.

Lemma glob_match_star_here (p s : string) :
  glob_match p s = true → glob_match (String "*" p) s = true.
Proof.
  simpl. intros H. destruct s; rewrite H; reflexivity.
Qed.

Lemma glob_match_star_any (s : string) : glob_match "*" s = true.
Proof.
  induction s as [|a s IH]; [reflexivity|]. apply glob_match_star_skip, IH.
Qed.

(** A literal part followed by [*] matches every name that starts with the
    literal part, wildcard characters in it standing for themselves. *)
Lemma glob_match_prefix (p r : string) : glob_match (p +:+ "*") (p +:+ r) = true.
Proof.
  induction p as [|c p IH].
  - rewrite !append_nil. apply glob_match_star_any.
  - rewrite !append_cons. destruct (Ascii.eqb c "*"%char) eqn:Hc.
    + apply Ascii.eqb_eq in Hc as ->.
      apply glob_match_star_skip, glob_match_star_here, IH.
    + simpl. rewrite Hc, Ascii.eqb_refl. exact IH.
Qed.

Lemma get_all_indices_eq (cls : Document) (c : client) :
  get_all_indices cls c = (Ok (generations cls (store c)), c).
Proof. reflexivity. Qed.

Lemma elem_of_store_get (pattern name : string) (st : index_store) :
  name ∈ store_get pattern st ↔ glob_match pattern name = true ∧ name ∈ dom st.
Proof.
  unfold store_get. rewrite list_elem_of_filter, elem_of_dom.
  split; intros [Hm Hn]; (split; [exact Hm|]).
  - apply list_elem_of_fmap in Hn as ([k v] & -> & Hkv).
    apply elem_of_map_to_list in Hkv. eexists; exact Hkv.
  - destruct Hn as [v Hv]. apply list_elem_of_fmap.
    exists (name, v). split; [reflexivity|]. apply elem_of_map_to_list. exact Hv.
Qed.

Lemma elem_of_generations (cls : Document) (name : string) (st : index_store) :
  name ∈ generations cls st ↔
  glob_match (_index_name cls +:+ VERSION_NAME_SEPARATOR +:+ "*") name = true ∧ name ∈ dom st.
Proof.
  unfold generations, sorted. rewrite merge_sort_Permutation. apply elem_of_store_get.
Qed.

Lemma append_assoc (a b c : string) : (a +:+ b) +:+ c = a +:+ b +:+ c.
Proof. induction a as [|x a IH]; [reflexivity|]. rewrite !append_cons, IH. reflexivity. Qed.

(** C9, as the claim states it (every suffix, every base name), fails:
    an empty suffix is falsy, so [get_index_name] returns the bare name; and
    for a base name with a wildcard character the expression sent to the
    engine matches names that do not start with the base name. *)
Lemma get_index_name_empty_suffix_is_bare :
  get_index_name (Examples.article_document "idx" 2) (Some EmptyString)
    ≠ "idx" +:+ "--" +:+ EmptyString
  ∧ ∃ names c',
      get_all_indices (Examples.article_document "a*" 2)
        (Examples.client_of {["ab--1" := ∅]}) = (Ok names, c') ∧
      "ab--1" ∈ names ∧ ¬ ∃ r, "ab--1" = "a*" +:+ "--" +:+ r.
Proof.
  split; [vm_compute; discriminate|].
  eexists _, _. split; [reflexivity|]. split.
  - vm_compute. apply list_elem_of_here.
  - intros [r Hr]. vm_compute in Hr. discriminate.
Qed.

(** C9 (amended): for every base name [B] and every non-empty suffix [S],
    [get_index_name] returns [B ++ "--" ++ S]; [get_all_indices] returns,
    sorted by name, the names of existing indices matching [B--*], and when
    [B] has no wildcard character each of them starts with [B ++ "--"]. *)
Theorem get_index_name_and_generations (cls : Document) (c : client) :
  (∀ S : string, S ≠ EmptyString →
     get_index_name cls (Some S) = _index_name cls +:+ "--" +:+ S) ∧
  ∃ names,
    get_all_indices cls c = (Ok names, c) ∧
    Sorted String.le names ∧
    (∀ n, n ∈ names ↔
          glob_match (_index_name cls +:+ "--*") n = true ∧ n ∈ dom (store c)) ∧
    (has_wildcard (_index_name cls) = false →
     Forall (λ n, ∃ r, n = _index_name cls +:+ "--" +:+ r) names).
Proof.
  split.
  - intros S HS. unfold get_index_name, truthy.
    destruct (String.eqb_spec S EmptyString) as [->|_]; [contradiction|reflexivity].
  - exists (generations cls (store c)). split; [apply get_all_indices_eq|].
    split; [apply Sorted_merge_sort, _|]. split.
    + intros n. apply elem_of_generations.
    + intros Hw. apply Forall_forall. intros n Hn.
      apply elem_of_generations in Hn as [Hm _].
      change (_index_name cls +:+ VERSION_NAME_SEPARATOR +:+ "*")
        with (_index_name cls +:+ "--" +:+ "*") in Hm.
      rewrite <- append_assoc in Hm.
      apply glob_match_literal in Hm as (r & -> & _).
      * exists r. apply append_assoc.
      * clear -Hw. induction (_index_name cls) as [|x s IH]; [reflexivity|].
        simpl in Hw. apply orb_false_iff in Hw as [Hx Hs].
        rewrite append_cons. simpl. rewrite Hx. exact (IH Hs).
Qed.

Lemma get_index_name_and_generations_witness :
  get_index_name (Examples.article_document "idx" 2) (Some "v1") = "idx--v1" ∧
  ∃ names,
    get_all_indices (Examples.article_document "idx" 2)
      (Examples.client_of {["idx--v2" := ∅; "idx--v1" := ∅; "other" := ∅]})
      = (Ok names, Examples.client_of {["idx--v2" := ∅; "idx--v1" := ∅; "other" := ∅]}) ∧
    Sorted String.le names ∧
    Forall (λ n, ∃ r, n = "idx" +:+ "--" +:+ r) names.
Proof.
  destruct (get_index_name_and_generations (Examples.article_document "idx" 2)
              (Examples.client_of {["idx--v2" := ∅; "idx--v1" := ∅; "other" := ∅]}))
    as [Hname (names & Hget & Hsorted & _ & Hprefix)].
  split.
  - apply Hname. discriminate.
  - exists names. split; [exact Hget|]. split; [exact Hsorted|].
    apply Hprefix. reflexivity.
Defined.

(* ===================================================================== *)
(** * Building bulk actions *)
(* ===================================================================== *)

Lemma _prepare_action_meta (self : Document) (obj : Model) (action : string)
    (index_name : option string) :
  _prepare_action self obj action index_name !! "_op_type" = Some (EStr action) ∧
  _prepare_action self obj action index_name !! "_id" = Some (EId (generate_id self obj)).
Proof.
  unfold _prepare_action.
  destruct (negb (String.eqb action "update")); split;
    by repeat (rewrite lookup_insert_ne; [|done]) || rewrite lookup_insert_eq.
Qed.

(** C7: in the descriptor [_prepare_action] builds, a delete carries no
    source payload ([_source] holds [None], nothing is extracted, and there
    is no [doc] entry); an update carries the extracted mapping under [doc]
    and has no [_source] entry; every other action carries the extracted
    mapping under [_source] and has no [doc] entry. *)
Theorem _prepare_action_payload (self : Document) (obj : Model) (action : string)
    (index_name : option string) :
  let d := _prepare_action self obj action index_name in
  (action = "delete" → d !! "_source" = Some ENone ∧ d !! "doc" = None) ∧
  (action = "update" →
     d !! "doc" = Some (EMapping (prepare self obj)) ∧ d !! "_source" = None) ∧
  (action ≠ "delete" → action ≠ "update" →
     d !! "_source" = Some (EMapping (prepare self obj)) ∧ d !! "doc" = None).
Proof.
  cbv zeta. unfold _prepare_action. split; [|split].
  - intros ->. simpl. split.
    + by rewrite lookup_insert_eq.
    + by repeat (rewrite lookup_insert_ne; [|done]).
  - intros ->. simpl. split.
    + by rewrite lookup_insert_eq.
    + by repeat (rewrite lookup_insert_ne; [|done]).
  - intros Hd Hu. apply String.eqb_neq in Hd, Hu. rewrite Hd, Hu. simpl. split.
    + by rewrite lookup_insert_eq.
    + by repeat (rewrite lookup_insert_ne; [|done]).
Qed.

Lemma _prepare_action_payload_witness :
  let self := Examples.article_document "idx" 2 in
  (_prepare_action self Examples.a1 "delete" None !! "_source" = Some ENone ∧
   _prepare_action self Examples.a1 "delete" None !! "doc" = None) ∧
  (_prepare_action self Examples.a1 "update" None !! "doc"
     = Some (EMapping {["title" := FStr "one"]}) ∧
   _prepare_action self Examples.a1 "update" None !! "_source" = None) ∧
  (_prepare_action self Examples.a1 "index" None !! "_source"
     = Some (EMapping {["title" := FStr "one"]}) ∧
   _prepare_action self Examples.a1 "index" None !! "doc" = None).
Proof.
  cbv zeta. split; [|split].
  - apply (_prepare_action_payload (Examples.article_document "idx" 2)
             Examples.a1 "delete" None). reflexivity.
  - apply (_prepare_action_payload (Examples.article_document "idx" 2)
             Examples.a1 "update" None). reflexivity.
  - apply (_prepare_action_payload (Examples.article_document "idx" 2)
             Examples.a1 "index" None); discriminate.
Defined.

(** C8: the actions [_get_actions] yields.  For a delete there is one
    descriptor per record, whatever [should_index_object] says; for any
    other action (index, update, create) there is one descriptor for each
    record [should_index_object] accepts, and none for the others; the order
    of the records is kept. *)
Theorem _get_actions_respects_predicate (self : Document) (object_list : list Model)
    (action : string) (index_name : option string) :
  (action = "delete" →
     _get_actions self object_list action index_name
     = (λ obj, _prepare_action self obj action index_name) <$> object_list) ∧
  (action ≠ "delete" →
     _get_actions self object_list action index_name
     = (λ obj, _prepare_action self obj action index_name)
         <$> filter (λ obj, should_index_object self obj = true) object_list).
Proof.
  split.
  - intros ->. induction object_list as [|obj rest IH]; [reflexivity|].
    simpl. rewrite IH. reflexivity.
  - intros Hd. apply String.eqb_neq in Hd.
    induction object_list as [|obj rest IH]; [reflexivity|].
    simpl. rewrite Hd, IH. simpl. rewrite filter_cons.
    destruct (should_index_object self obj) eqn:Hs.
    + rewrite decide_True by done. reflexivity.
    + rewrite decide_False by done. reflexivity.
Qed.

Lemma _get_actions_respects_predicate_witness :
  let self := Examples.article_document "idx" 2 in
  let objs := [Examples.a1; Examples.a2; Examples.a3] in
  length (_get_actions self objs "delete" None) = 3 ∧
  _get_actions self objs "index" None
  = [_prepare_action self Examples.a1 "index" None;
     _prepare_action self Examples.a3 "index" None].
Proof.
  cbv zeta. split.
  - rewrite (proj1 (_get_actions_respects_predicate (Examples.article_document "idx" 2)
                      [Examples.a1; Examples.a2; Examples.a3] "delete" None) eq_refl).
    reflexivity.
  - rewrite (proj2 (_get_actions_respects_predicate (Examples.article_document "idx" 2)
                      [Examples.a1; Examples.a2; Examples.a3] "index" None));
      [reflexivity | discriminate].
Defined.

(* ===================================================================== *)
(** * Bulk submission: what reaches the engine and who is notified *)
(* ===================================================================== *)

(** [next] touches nothing but the generator it advances. *)
Lemma next_frame (it : iterator) (w : world) (x : descriptor * iterator * world) :
  next it w = Some x →
  writes x.2 = writes w ∧ signals x.2 = signals w ∧ helper_calls x.2 = helper_calls w ∧
  (∀ g, it = ItGen g → x.1.2 = ItGen g).
Proof.
  destruct it as [[|a rest]|g]; simpl; try discriminate.
  - intros [= <-]. simpl. repeat split; discriminate.
  - destruct (generators w !! g) as [[|a rest]|]; try discriminate.
    intros [= <-]. simpl. repeat split. intros g' [= <-]. reflexivity.
Qed.

Lemma next_None_pending (it : iterator) (w : world) :
  next it w = None → pending it w = [].
Proof.
  destruct it as [[|a rest]|g]; simpl; try discriminate; [reflexivity|].
  destruct (generators w !! g) as [[|a rest]|]; try discriminate; reflexivity.
Qed.

Lemma take_more_frame (n : nat) (it : iterator) (w : world) :
  writes (take_more n it w).2 = writes w ∧
  signals (take_more n it w).2 = signals w ∧
  helper_calls (take_more n it w).2 = helper_calls w ∧
  (∀ g, it = ItGen g → (take_more n it w).1.2 = ItGen g).
Proof.
  revert it w. induction n as [|n IH]; intros it w; simpl; [by repeat split|].
  destruct (next it w) as [[[a it'] w']|] eqn:Hn; [|by repeat split].
  destruct (next_frame _ _ _ Hn) as (Hw & Hs & Hc & Hg). simpl in *.
  specialize (IH it' w'). destruct (take_more n it' w') as [[rest it''] w''].
  simpl in *. destruct IH as (IHw & IHs & IHc & IHg).
  rewrite IHw, IHs, IHc. repeat split; try assumption.
  intros g Hit. apply IHg, (Hg g Hit).
Qed.

(** Cutting a chunk touches nothing but the generator it reads from. *)
Lemma read_chunk_frame (kwargs : bulk_kwargs) (it : iterator) (w : world)
    (x : list descriptor * iterator * world) :
  read_chunk kwargs it w = Some x →
  writes x.2 = writes w ∧ signals x.2 = signals w ∧ helper_calls x.2 = helper_calls w ∧
  (∀ g, it = ItGen g → x.1.2 = ItGen g).
Proof.
  unfold read_chunk. destruct (next it w) as [[[a it1] w1]|] eqn:Hn; [|discriminate].
  destruct (next_frame _ _ _ Hn) as (Hw & Hs & Hc & Hg). simpl in *.
  set (room := match chunk_size_of kwargs with 0 => _ | S n => n end).
  pose proof (take_more_frame room it1 w1) as Hf.
  destruct (take_more room it1 w1) as [[rest it2] w2]. simpl in Hf.
  destruct Hf as (Hfw & Hfs & Hfc & Hfg).
  intros [= <-]. simpl. rewrite Hfw, Hfs, Hfc. repeat split; try assumption.
  intros g Hit. apply Hfg, (Hg g Hit).
Qed.

Lemma read_chunk_None (kwargs : bulk_kwargs) (it : iterator) (w : world) :
  read_chunk kwargs it w = None → pending it w = [].
Proof.
  unfold read_chunk. destruct (next it w) as [[[a it1] w1]|] eqn:Hn.
  - destruct (take_more _ it1 w1) as [[rest it2] w2]. discriminate.
  - intros _. apply (next_None_pending _ _ Hn).
Qed.

(** Sending a chunk adds its actions to the writes, in order, and touches
    nothing else. *)
Lemma send_chunk_frame (chunk : list descriptor) (w : world) :
  writes (send_chunk chunk w) = writes w ++ chunk ∧
  signals (send_chunk chunk w) = signals w ∧
  helper_calls (send_chunk chunk w) = helper_calls w.
Proof.
  unfold send_chunk. revert w. induction chunk as [|a chunk IH]; intros w; simpl.
  - rewrite app_nil_r. repeat split.
  - destruct (IH (add_write a w)) as (-> & -> & ->). simpl.
    rewrite <- app_assoc. repeat split.
Qed.

Lemma new_generator_pending (items : list descriptor) (w : world) :
  pending (iter (new_generator items w).1) (new_generator items w).2 = items ∧
  writes (new_generator items w).2 = writes w ∧
  signals (new_generator items w).2 = signals w ∧
  helper_calls (new_generator items w).2 = helper_calls w.
Proof.
  unfold new_generator. simpl. rewrite lookup_app_r by reflexivity.
  rewrite Nat.sub_diag. repeat split.
Qed.

Section BulkExecutorFacts.

Variable item_ok : descriptor → bool.

Lemma forallb_item_ok (items : list descriptor) :
  forallb item_ok items = true ↔ Forall (λ a, item_ok a = true) items.
Proof.
  induction items as [|a items IH]; simpl.
  - split; [constructor | reflexivity].
  - rewrite andb_true_iff, IH, Forall_cons. reflexivity.
Qed.

Lemma refused_nil (items : list descriptor) :
  forallb item_ok items = true → refused item_ok items = [].
Proof.
  unfold refused. induction items as [|a items IH]; simpl; [reflexivity|].
  intros [Ha Hrest]%andb_true_iff.
  rewrite filter_cons_False by (rewrite Ha; discriminate). apply IH, Hrest.
Qed.

Lemma refused_not_nil (items : list descriptor) :
  forallb item_ok items = false → refused item_ok items ≠ [].
Proof.
  unfold refused. induction items as [|a items IH]; simpl; [discriminate|].
  destruct (item_ok a) eqn:Ha; simpl.
  - rewrite filter_cons_False by (rewrite Ha; discriminate). exact IH.
  - intros _. rewrite filter_cons_True by exact Ha. discriminate.
Qed.

Lemma accepted_all (items : list descriptor) :
  forallb item_ok items = true → accepted item_ok items = items.
Proof.
  unfold accepted. induction items as [|a items IH]; simpl; [reflexivity|].
  intros [Ha Hrest]%andb_true_iff.
  rewrite filter_cons_True by exact Ha. f_equal. apply IH, Hrest.
Qed.

(** ** The sequential helper *)

(** What a run over the stream comes to.  The chunks that were cut are
    [sent], all of them written in order, and [rest] was not read.  When
    the run returns nothing is left, the response counts the accepted
    items and lists the refused ones, and with [raise_on_error] on no item
    was refused.  When it raises, [raise_on_error] is on and an item that
    was sent has been refused. *)
Lemma bulk_chunks_spec (kwargs : bulk_kwargs) (it : iterator) (w : world)
    (success : nat) (errors : list descriptor) :
  ∃ sent rest,
    pending it w = sent ++ rest ∧
    writes (bulk_chunks item_ok kwargs it w success errors).2 = writes w ++ sent ∧
    signals (bulk_chunks item_ok kwargs it w success errors).2 = signals w ∧
    helper_calls (bulk_chunks item_ok kwargs it w success errors).2 = helper_calls w ∧
    (∀ g, it = ItGen g →
          pending (ItGen g) (bulk_chunks item_ok kwargs it w success errors).2 = rest) ∧
    match (bulk_chunks item_ok kwargs it w success errors).1 with
    | Returned resp =>
        rest = [] ∧
        resp = (success + length (accepted item_ok sent), errors ++ refused item_ok sent) ∧
        (raises_on_error kwargs = true → forallb item_ok sent = true)
    | BulkIndexError errs =>
        raises_on_error kwargs = true ∧ errs ≠ [] ∧ forallb item_ok sent = false
    end.
Proof.
  funelim (bulk_chunks item_ok kwargs it w success errors).
  - (* the stream has ended *)
    exists [], []. rewrite (read_chunk_None _ _ _ e), !app_nil_r. simpl.
    repeat split.
    + intros g ->. apply (read_chunk_None _ _ _ e).
    + rewrite Nat.add_0_r. reflexivity.
  - (* a chunk with a refused item, under raise_on_error *)
    clear H H0 Heqcall. destruct x as [[l i] w0].
    destruct (read_chunk_pending _ _ _ _ Hn) as [Hp _].
    destruct (read_chunk_frame _ _ _ _ Hn) as (Hw & Hs & Hc & Hg).
    destruct (send_chunk_frame l w0) as (Hsw & Hss & Hsc). cbn [fst snd] in *.
    apply andb_true_iff in e as [Hraise Hrefused%negb_true_iff].
    exists l, (pending i w0). rewrite Hsw, Hss, Hsc, Hw, Hs, Hc.
    repeat split; try assumption.
    + intros g Hit. rewrite <- (Hg g Hit). apply send_chunk_pending.
    + apply refused_not_nil, Hrefused.
  - (* a chunk that goes through: on to the next one *)
    clear H0 H1 Heqcall. destruct x as [[l i] w0].
    destruct (read_chunk_pending _ _ _ _ Hn) as [Hp _].
    destruct (read_chunk_frame _ _ _ _ Hn) as (Hw & Hs & Hc & Hg).
    destruct (send_chunk_frame l w0) as (Hsw & Hss & Hsc). cbn [fst snd] in *.
    destruct H as (sent & rest & IHp & IHw & IHs & IHc & IHg & IHr).
    rewrite send_chunk_pending in IHp.
    exists (l ++ sent), rest.
    rewrite IHw, IHs, IHc, Hsw, Hss, Hsc, Hw, Hs, Hc, Hp, IHp, !app_assoc.
    repeat split.
    + intros g Hit. apply IHg, (Hg g Hit).
    + destruct (bulk_chunks item_ok kwargs i (send_chunk l w0) _ _).1 as [resp|errs].
      * destruct IHr as (-> & -> & Hall). split; [reflexivity|]. split.
        -- unfold accepted, refused. rewrite !filter_app, length_app, Nat.add_assoc,
             app_assoc. reflexivity.
        -- intros Hraise. rewrite forallb_app, (Hall Hraise), andb_true_r.
           rewrite Hraise in e. simpl in e. apply negb_false_iff, e.
      * destruct IHr as (Hraise & Herrs & Hrefused). repeat split; try assumption.
        rewrite forallb_app, Hrefused. apply andb_false_r.
Qed.

(** [helpers.bulk] logs its call and runs the chunks. *)
Lemma helpers_bulk_spec (kwargs : bulk_kwargs) (actions : iterable) (w : world) :
  ∃ sent rest,
    pending (iter actions) w = sent ++ rest ∧
    writes (helpers_bulk item_ok kwargs actions w).2 = writes w ++ sent ∧
    signals (helpers_bulk item_ok kwargs actions w).2 = signals w ∧
    helper_calls (helpers_bulk item_ok kwargs actions w).2
    = helper_calls w ++ [CallBulk kwargs] ∧
    pending (iter actions) (helpers_bulk item_ok kwargs actions w).2
    = match actions with IterList items => items | IterGen _ => rest end ∧
    match (helpers_bulk item_ok kwargs actions w).1 with
    | Returned resp =>
        rest = [] ∧
        resp = (length (accepted item_ok sent), refused item_ok sent) ∧
        (raises_on_error kwargs = true → forallb item_ok sent = true)
    | BulkIndexError errs =>
        raises_on_error kwargs = true ∧ errs ≠ [] ∧ forallb item_ok sent = false
    end.
Proof.
  unfold helpers_bulk.
  destruct (bulk_chunks_spec kwargs (iter actions)
              (add_helper_call (CallBulk kwargs) w) 0 [])
    as (sent & rest & Hp & Hw & Hs & Hc & Hg & Hr).
  exists sent, rest. rewrite Hw, Hs, Hc.
  split; [destruct actions; exact Hp|]. repeat split.
  - destruct actions as [items|g]; [reflexivity|]. apply (Hg g eq_refl).
  - exact Hr.
Qed.

(** The run returns when the engine accepts every item or the caller has
    turned [raise_on_error] off, and only then. *)
Lemma helpers_bulk_returns (kwargs : bulk_kwargs) (actions : iterable) (w : world) :
  raise_on_error kwargs = Some false ∨
  Forall (λ a, item_ok a = true) (pending (iter actions) w) →
  (helpers_bulk item_ok kwargs actions w).1
  = Returned (length (accepted item_ok (pending (iter actions) w)),
              refused item_ok (pending (iter actions) w)) ∧
  writes (helpers_bulk item_ok kwargs actions w).2
  = writes w ++ pending (iter actions) w ∧
  signals (helpers_bulk item_ok kwargs actions w).2 = signals w ∧
  helper_calls (helpers_bulk item_ok kwargs actions w).2
  = helper_calls w ++ [CallBulk kwargs] ∧
  pending (iter actions) (helpers_bulk item_ok kwargs actions w).2
  = match actions with IterList items => items | IterGen _ => [] end.
Proof.
  intros Hcase.
  destruct (helpers_bulk_spec kwargs actions w)
    as (sent & rest & Hp & Hw & Hs & Hc & Hg & Hr).
  destruct (helpers_bulk item_ok kwargs actions w).1 as [resp|errs].
  - destruct Hr as (-> & -> & _). rewrite app_nil_r in Hp. subst sent.
    repeat split; assumption.
  - exfalso. destruct Hr as (Hraise & _ & Hrefused).
    destruct Hcase as [Hoff|Hall].
    + unfold raises_on_error in Hraise. rewrite Hoff in Hraise. discriminate.
    + rewrite Hp in Hall. apply Forall_app in Hall as [Hall _].
      apply forallb_item_ok in Hall. congruence.
Qed.

Lemma helpers_bulk_raises (kwargs : bulk_kwargs) (actions : iterable) (w : world) :
  raise_on_error kwargs ≠ Some false →
  ¬ Forall (λ a, item_ok a = true) (pending (iter actions) w) →
  ∃ errors, (helpers_bulk item_ok kwargs actions w).1 = BulkIndexError errors ∧
            errors ≠ [] ∧
            signals (helpers_bulk item_ok kwargs actions w).2 = signals w.
Proof.
  intros Hon Hsome.
  destruct (helpers_bulk_spec kwargs actions w)
    as (sent & rest & Hp & Hw & Hs & Hc & Hg & Hr).
  destruct (helpers_bulk item_ok kwargs actions w).1 as [resp|errs].
  - exfalso. destruct Hr as (-> & _ & Hall). rewrite app_nil_r in Hp. subst sent.
    apply Hsome, forallb_item_ok, Hall. unfold raises_on_error.
    destruct (raise_on_error kwargs) as [[|]|]; [reflexivity | congruence | reflexivity].
  - exists errs. destruct Hr as (_ & Herrs & _). repeat split; assumption.
Qed.

(** ** The parallel helper *)

(** Asking the parallel helper for its generator reads and writes nothing. *)
Lemma helpers_parallel_bulk_lazy (kwargs : bulk_kwargs) (actions : iterable) (w : world) :
  writes (helpers_parallel_bulk kwargs actions w).2 = writes w ∧
  generators (helpers_parallel_bulk kwargs actions w).2 = generators w.
Proof. split; reflexivity. Qed.

Lemma pb_next_StopIteration (gen : parallel_bulk_generator) (w : world) :
  pb_next item_ok gen w = PbStopIteration → pending (pb_source gen) w = [].
Proof.
  unfold pb_next. destruct (pb_ready gen) as [|i ready]; [|discriminate].
  destruct (read_chunk (pb_kwargs gen) (pb_source gen) w) as [[[chunk it'] w1]|] eqn:Hc.
  - destruct (read_chunk_pending _ _ _ _ Hc) as [_ Hlen]. simpl in Hlen.
    destruct (raises_on_error (pb_kwargs gen) && negb (forallb item_ok chunk));
      [discriminate|].
    destruct chunk as [|a chunk]; [simpl in Hlen; lia | discriminate].
  - intros _. apply (read_chunk_None _ _ _ Hc).
Qed.

(** A step that yields: either a verdict that was ready, or the first
    verdict of a chunk that has just been sent. *)
Lemma pb_next_PbYield (gen : parallel_bulk_generator) (w : world)
    (item : bool * descriptor) (gen' : parallel_bulk_generator) (w' : world) :
  pb_next item_ok gen w = PbYield item gen' w' →
  pb_kwargs gen' = pb_kwargs gen ∧
  ∃ chunk,
    pending (pb_source gen) w = chunk ++ pending (pb_source gen') w' ∧
    writes w' = writes w ++ chunk ∧ signals w' = signals w ∧
    helper_calls w' = helper_calls w ∧
    (∀ g, pb_source gen = ItGen g → pb_source gen' = ItGen g) ∧
    (raises_on_error (pb_kwargs gen) = true → forallb item_ok chunk = true).
Proof.
  unfold pb_next. destruct (pb_ready gen) as [|i ready].
  - destruct (read_chunk (pb_kwargs gen) (pb_source gen) w) as [[[chunk it'] w1]|] eqn:Hc;
      [|discriminate].
    destruct (read_chunk_pending _ _ _ _ Hc) as [Hp _].
    destruct (read_chunk_frame _ _ _ _ Hc) as (Hw & Hs & Hcalls & Hg).
    destruct (send_chunk_frame chunk w1) as (Hsw & Hss & Hsc). cbn [fst snd] in *.
    destruct (raises_on_error (pb_kwargs gen) && negb (forallb item_ok chunk)) eqn:Hcond;
      [discriminate|].
    destruct ((λ a, (item_ok a, a)) <$> chunk) as [|v ready]; [discriminate|].
    intros [= <- <- <-]. simpl. split; [reflexivity|]. exists chunk.
    rewrite send_chunk_pending, Hsw, Hss, Hsc, Hw, Hs, Hcalls.
    repeat split; try assumption.
    intros Hraise. rewrite Hraise in Hcond. simpl in Hcond.
    apply negb_false_iff, Hcond.
  - intros [= <- <- <-]. simpl. split; [reflexivity|]. exists [].
    rewrite app_nil_r. repeat split. auto.
Qed.

(** A step that raises: the chunk has been sent and the engine has refused
    one of its items. *)
Lemma pb_next_PbBulkIndexError (gen : parallel_bulk_generator) (w : world)
    (errors : list descriptor) (w' : world) :
  pb_next item_ok gen w = PbBulkIndexError errors w' →
  raises_on_error (pb_kwargs gen) = true ∧ errors ≠ [] ∧
  ∃ chunk rest,
    pending (pb_source gen) w = chunk ++ rest ∧
    writes w' = writes w ++ chunk ∧ signals w' = signals w ∧
    helper_calls w' = helper_calls w ∧
    (∀ g, pb_source gen = ItGen g → pending (ItGen g) w' = rest) ∧
    forallb item_ok chunk = false.
Proof.
  unfold pb_next. destruct (pb_ready gen) as [|i ready]; [|discriminate].
  destruct (read_chunk (pb_kwargs gen) (pb_source gen) w) as [[[chunk it'] w1]|] eqn:Hc;
    [|discriminate].
  destruct (read_chunk_pending _ _ _ _ Hc) as [Hp _].
  destruct (read_chunk_frame _ _ _ _ Hc) as (Hw & Hs & Hcalls & Hg).
  destruct (send_chunk_frame chunk w1) as (Hsw & Hss & Hsc). cbn [fst snd] in *.
  destruct (raises_on_error (pb_kwargs gen) && negb (forallb item_ok chunk)) eqn:Hcond.
  - apply andb_true_iff in Hcond as [Hraise Hrefused%negb_true_iff].
    intros [= <- <-]. split; [exact Hraise|]. split; [apply refused_not_nil, Hrefused|].
    exists chunk, (pending it' w1). rewrite Hsw, Hss, Hsc, Hw, Hs, Hcalls.
    repeat split; try assumption.
    intros g Hit. rewrite <- (Hg g Hit). apply send_chunk_pending.
  - destruct ((λ a, (item_ok a, a)) <$> chunk); discriminate.
Qed.

(** What draining the generator comes to, in the terms of
    [bulk_chunks_spec]. *)
Lemma deque_maxlen0_spec (gen : parallel_bulk_generator) (w : world) :
  ∃ sent rest,
    pending (pb_source gen) w = sent ++ rest ∧
    writes (deque_maxlen0 item_ok gen w).2 = writes w ++ sent ∧
    signals (deque_maxlen0 item_ok gen w).2 = signals w ∧
    helper_calls (deque_maxlen0 item_ok gen w).2 = helper_calls w ∧
    (∀ g, pb_source gen = ItGen g →
          pending (ItGen g) (deque_maxlen0 item_ok gen w).2 = rest) ∧
    match (deque_maxlen0 item_ok gen w).1 with
    | None =>
        rest = [] ∧
        (raises_on_error (pb_kwargs gen) = true → forallb item_ok sent = true)
    | Some errs =>
        raises_on_error (pb_kwargs gen) = true ∧ errs ≠ [] ∧
        forallb item_ok sent = false
    end.
Proof.
  funelim (deque_maxlen0 item_ok gen w).
  - destruct (pb_next_PbYield _ _ _ _ _ Hn)
      as (Hk & chunk & Hp & Hw & Hs & Hc & Hg & Hall).
    destruct H as (sent & rest & IHp & IHw & IHs & IHc & IHg & IHr).
    exists (chunk ++ sent), rest.
    rewrite IHw, IHs, IHc, Hw, Hs, Hc, Hp, IHp, !app_assoc. repeat split.
    + intros g Hit. apply IHg, (Hg g Hit).
    + rewrite Hk in IHr.
      destruct (deque_maxlen0 item_ok gen' w').1 as [errs|].
      * destruct IHr as (Hraise & Herrs & Hrefused). repeat split; try assumption.
        rewrite forallb_app, Hrefused. apply andb_false_r.
      * destruct IHr as (-> & IHall). split; [reflexivity|].
        intros Hraise. rewrite forallb_app, (Hall Hraise), (IHall Hraise). reflexivity.
  - exists [], []. rewrite (pb_next_StopIteration _ _ e), !app_nil_r. cbn [fst snd].
    repeat split. intros g Hit. rewrite <- Hit. apply (pb_next_StopIteration _ _ e).
  - destruct (pb_next_PbBulkIndexError _ _ _ _ e)
      as (Hraise & Herrs & chunk & rest & Hp & Hw & Hs & Hc & Hg & Hrefused).
    exists chunk, rest. cbn [fst snd]. repeat split; assumption.
Qed.

(** [Document.parallel_bulk] in the same terms: the value is [(1, [])]
    whenever the method returns. *)
Lemma parallel_bulk_spec (self : Document) (actions : iterable) (kwargs : bulk_kwargs)
    (w : world) :
  let kwargs' := setdefault_chunk_size (queryset_pagination self) kwargs in
  ∃ sent rest,
    pending (iter actions) w = sent ++ rest ∧
    writes (parallel_bulk item_ok self actions kwargs w).2 = writes w ++ sent ∧
    signals (parallel_bulk item_ok self actions kwargs w).2 = signals w ∧
    helper_calls (parallel_bulk item_ok self actions kwargs w).2
    = helper_calls w ++ [CallParallelBulk kwargs'] ∧
    pending (iter actions) (parallel_bulk item_ok self actions kwargs w).2
    = match actions with IterList items => items | IterGen _ => rest end ∧
    match (parallel_bulk item_ok self actions kwargs w).1 with
    | Returned resp =>
        resp = (1, []) ∧ rest = [] ∧
        (raises_on_error kwargs = true → forallb item_ok sent = true)
    | BulkIndexError errs =>
        raises_on_error kwargs = true ∧ errs ≠ [] ∧ forallb item_ok sent = false
    end.
Proof.
  cbv zeta. unfold parallel_bulk, helpers_parallel_bulk.
  match goal with |- context [deque_maxlen0 _ ?g ?w'] =>
    destruct (deque_maxlen0_spec g w')
      as (sent & rest & Hp & Hw & Hs & Hc & Hg & Hr);
    destruct (deque_maxlen0 item_ok g w') as [[errs|] w1] end;
    simpl in *;
    (assert (raises_on_error (setdefault_chunk_size (queryset_pagination self) kwargs)
             = raises_on_error kwargs) as Hsame
       by (unfold setdefault_chunk_size; destruct (chunk_size kwargs); reflexivity));
    rewrite Hsame in Hr; exists sent, rest.
  - split; [destruct actions; exact Hp|]. repeat split; try assumption; try apply Hr.
    destruct actions as [items|g]; [reflexivity|]. apply (Hg g eq_refl).
  - split; [destruct actions; exact Hp|]. repeat split; try assumption; try apply Hr.
    destruct actions as [items|g]; [reflexivity|]. apply (Hg g eq_refl).
Qed.

Lemma raises_on_error_cases (kwargs : bulk_kwargs) :
  (raise_on_error kwargs = Some false ∧ raises_on_error kwargs = false) ∨
  (raise_on_error kwargs ≠ Some false ∧ raises_on_error kwargs = true).
Proof.
  unfold raises_on_error. destruct (raise_on_error kwargs) as [[|]|]; simpl;
    [right | left | right]; split; congruence.
Qed.

(** C4 (amended): [parallel_bulk] drains the action sequence before it
    returns, and it returns when the engine accepts every action (or the
    caller has turned [raise_on_error] off).  With [K] actions pending in
    [actions], the value it then returns is [(1, [])], each of the [K]
    actions has reached the engine exactly once (the order in which the
    helper's threads deliver them is not claimed), and a generator passed as
    [actions] is left exhausted.  When the engine refuses an action and
    [raise_on_error] is left on, as the method leaves it, the helper's
    [BulkIndexError] leaves the method and nothing is returned.  The three
    parts: what holds whenever the call returns; when it returns; when it
    raises. *)
Theorem parallel_bulk_drains (self : Document) (actions : iterable)
    (kwargs : bulk_kwargs) (w : world) :
  let items := pending (iter actions) w in
  let K := length items in
  let r := parallel_bulk item_ok self actions kwargs w in
  (∀ resp, r.1 = Returned resp →
     resp = (1, []) ∧
     (∃ sent, writes r.2 = writes w ++ sent ∧ sent ≡ₚ items) ∧
     length (writes r.2) = length (writes w) + K ∧
     pending (iter actions) r.2
     = match actions with IterList items => items | IterGen _ => [] end) ∧
  (raise_on_error kwargs = Some false ∨ Forall (λ a, item_ok a = true) items →
   r.1 = Returned (1, [])) ∧
  (raise_on_error kwargs ≠ Some false → ¬ Forall (λ a, item_ok a = true) items →
   ∃ errors, r.1 = BulkIndexError errors ∧ errors ≠ []).
Proof.
  cbv zeta.
  destruct (parallel_bulk_spec self actions kwargs w)
    as (sent & rest & Hp & Hw & Hs & Hc & Hg & Hr).
  split; [|split].
  - intros resp Hret. rewrite Hret in Hr. destruct Hr as (-> & -> & _).
    rewrite app_nil_r in Hp. subst sent. split; [reflexivity|]. split; [|split].
    + eexists. split; [exact Hw | reflexivity].
    + rewrite Hw, length_app. reflexivity.
    + exact Hg.
  - intros Hcase.
    destruct (parallel_bulk item_ok self actions kwargs w).1 as [resp|errs].
    + destruct Hr as (-> & _). reflexivity.
    + exfalso. destruct Hr as (Hraise & _ & Hrefused).
      destruct Hcase as [Hoff|Hall].
      * unfold raises_on_error in Hraise. rewrite Hoff in Hraise. discriminate.
      * rewrite Hp in Hall. apply Forall_app in Hall as [Hall _].
        apply forallb_item_ok in Hall. congruence.
  - intros Hon Hsome.
    destruct (parallel_bulk item_ok self actions kwargs w).1 as [resp|errs].
    + exfalso. destruct Hr as (_ & -> & Hall). rewrite app_nil_r in Hp. subst sent.
      apply Hsome, forallb_item_ok, Hall.
      destruct (raises_on_error_cases kwargs) as [[Hoff _]|[_ Hraise]];
        [contradiction | exact Hraise].
    + exists errs. destruct Hr as (_ & Herrs & _). split; [reflexivity | exact Herrs].
Qed.


(** C10: [update] called with a single model instance does exactly what
    [update] called with the one-element list of that instance does: the
    same response and the same world afterwards (helper calls, writes,
    notifications, generators). *)
Theorem update_single_instance_as_singleton (auto_refresh_enabled : bool)
    (self : Document) (m : Model) (action : string) (index_suffix : option string)
    (refresh : option bool) (parallel : bool) (chunk_size : option nat) (w : world) :
  update item_ok auto_refresh_enabled self (AModel m) action index_suffix
    refresh parallel chunk_size w
  = update item_ok auto_refresh_enabled self (AnIterable [m]) action index_suffix
      refresh parallel chunk_size w.
Proof. reflexivity. Qed.

End BulkExecutorFacts.

(** C4, as the claim states it, fails: the value [(1, [])] is not returned
    whatever the engine answers.  With an engine that refuses the second of
    two actions, [parallel_bulk] with no keyword given raises
    [BulkIndexError] for that action and returns nothing. *)
Lemma parallel_bulk_raises_on_refused_item :
  let self := Examples.article_document "idx" 2 in
  let actions := IterList (_get_actions self [Examples.a1; Examples.a3] "index" None) in
  let r := parallel_bulk (Examples.refuses_id 3) self actions
             Examples.no_kwargs Examples.empty_world in
  length (pending (iter actions) Examples.empty_world) = 2 ∧
  r.1 = BulkIndexError [_prepare_action self Examples.a3 "index" None] ∧
  r.1 ≠ Returned (1, []).
Proof. cbv zeta. split; [by vm_compute|]. split; [by vm_compute|]. by vm_compute. Qed.

Lemma parallel_bulk_drains_witness :
  let self := Examples.article_document "idx" 2 in
  let actions := IterList (_get_actions self [Examples.a1; Examples.a3] "index" None) in
  let r := parallel_bulk (λ _, true) self actions Examples.no_kwargs Examples.empty_world in
  r.1 = Returned (1, []) ∧ length (writes r.2) = 2.
Proof.
  cbv zeta.
  destruct (parallel_bulk_drains (λ _, true) (Examples.article_document "idx" 2)
              (IterList (_get_actions (Examples.article_document "idx" 2)
                           [Examples.a1; Examples.a3] "index" None))
              Examples.no_kwargs Examples.empty_world) as (Hret & Hall & _).
  assert ((parallel_bulk (λ _, true) (Examples.article_document "idx" 2)
             (IterList (_get_actions (Examples.article_document "idx" 2)
                          [Examples.a1; Examples.a3] "index" None))
             Examples.no_kwargs Examples.empty_world).1 = Returned (1, [])) as Hr.
  { apply Hall. right. apply Forall_forall. intros a _. reflexivity. }
  split; [exact Hr|].
  destruct (Hret _ Hr) as (_ & _ & Hlen & _). exact Hlen.
Defined.


(* ===================================================================== *)
(** * Pagination of the indexing queryset *)
(* ===================================================================== *)

Lemma ceil_div_spec (N P k : nat) : 1 ≤ P → k * P < N ↔ k < ceil_div N P.
Proof.
  intros HP. unfold ceil_div.
  pose proof (Nat.div_mod_eq (N + P - 1) P) as Hdm.
  pose proof (Nat.mod_upper_bound (N + P - 1) P ltac:(lia)) as Hlt.
  split; intros H; nia.
Qed.

Lemma indexing_loop_done (fuel : nat) (qs : QuerySet) (P N i : nat) :
  indexing_loop (S fuel) qs P N i N = Some ([], []).
Proof. simpl. rewrite Nat.ltb_irrefl. reflexivity. Qed.

Lemma qs_slice_page (qs : QuerySet) (i P : nat) :
  qs_slice i (i + P) qs = take P (drop i (rows qs)).
Proof. unfold qs_slice. f_equal. lia. Qed.

(** From a page boundary the loop yields the rest of the rows, one page
    per iteration. *)
Lemma indexing_loop_from_page (qs : QuerySet) (P : nat) :
  1 ≤ P →
  let N := length (rows qs) in
  ∀ fuel k,
    k * P ≤ N →
    ceil_div N P - k < fuel →
    indexing_loop fuel qs P N (k * P) (k * P)
    = Some (drop (k * P) (rows qs),
            (λ j, (j * P, j * P + P)) <$> seq k (ceil_div N P - k)).
Proof.
  intros HP N fuel. induction fuel as [|fuel IH]; intros k Hk Hfuel; [lia|].
  pose proof (ceil_div_spec N P k HP) as Hceil.
  simpl. destruct (Nat.ltb_spec (k * P) N) as [Hlt|Hge].
  - assert (k < ceil_div N P) as Hkc by (apply Hceil; exact Hlt).
    rewrite qs_slice_page.
    replace (ceil_div N P - k) with (S (ceil_div N P - S k)) by lia.
    destruct (Nat.le_gt_cases (S k * P) N) as [Hnext|Hlast].
    + rewrite length_take, length_drop.
      replace (Nat.min (k * P + P) N) with (S k * P) by lia.
      replace (k * P + P `min` (length (rows qs) - k * P)) with (S k * P)
        by (fold N; lia).
      rewrite (IH (S k)) by lia.
      simpl. f_equal. f_equal.
      rewrite <- (take_drop P (drop (k * P) (rows qs))) at 2.
      rewrite drop_drop. do 2 f_equal. lia.
    + rewrite length_take, length_drop.
      replace (Nat.min (k * P + P) N) with N by lia.
      replace (k * P + P `min` (length (rows qs) - k * P)) with N by (fold N; lia).
      assert (ceil_div N P = S k) as Hc.
      { pose proof (ceil_div_spec N P (S k) HP) as Hceil'.
        destruct (Nat.lt_ge_cases (S k) (ceil_div N P)) as [Hgt|Hle]; [|lia].
        apply Hceil' in Hgt. lia. }
      destruct fuel as [|fuel]; [lia|].
      rewrite indexing_loop_done. rewrite Hc, Nat.sub_diag. simpl.
      rewrite app_nil_r, take_ge; [reflexivity|]. rewrite length_drop. fold N. lia.
  - assert (k * P = N) as HkN by lia.
    assert (ceil_div N P - k = 0) as -> by lia.
    rewrite drop_ge by (fold N; lia). reflexivity.
Qed.

(** With a page size of 0 nothing is ever pulled and the loop does not
    end: the bound [P >= 1] is needed. *)
Lemma indexing_loop_page_size_0 (fuel : nat) (qs : QuerySet) (N : nat) :
  0 < N → indexing_loop fuel qs 0 N 0 0 = None.
Proof.
  intros HN. induction fuel as [|fuel IH]; [reflexivity|].
  simpl. destruct (Nat.ltb_spec 0 N) as [_|Hge]; [|lia].
  unfold qs_slice. simpl. rewrite IH. reflexivity.
Qed.

Lemma get_queryset_is_sliced (table : list Model) (filter_ exclude : option (Model → bool))
    (count : option nat) :
  is_sliced (get_queryset table filter_ exclude count) = bool_decide (is_Some count).
Proof. destruct filter_, exclude, count; reflexivity. Qed.

(** C6, as the claim states it, fails for a count-limited record set: the
    queryset is then already sliced, [order_by("pk")] is skipped, and the
    records come out in the order of the relational store. *)
Lemma sliced_queryset_not_in_pk_order :
  ∃ objs pulls,
    get_indexing_queryset (Examples.article_document "idx" 1)
      [Examples.a2; Examples.a1] None None (Some 2) 3 = Some (objs, pulls) ∧
    length objs = 2 ∧ length pulls = 2 ∧ ¬ Sorted pk_le objs.
Proof.
  eexists _, _. split; [reflexivity|]. split; [reflexivity|]. split; [reflexivity|].
  intros Hs. apply Sorted_inv in Hs as [_ Hhd]. apply HdRel_inv in Hhd.
  vm_compute in Hhd. apply Hhd. reflexivity.
Qed.

(** C6 (amended): let the record set be what [get_queryset] selects, [N]
    records, and let the page size be [P >= 1].  Then the loop finishes, and
    [get_indexing_queryset] yields exactly those [N] records, each once,
    pulled in exactly [ceil(N/P)] slices [(k*P, k*P + P)] of the query.  The
    records come in primary-key order when no count limit is given; with a
    count limit they come in the order of the record set itself. *)
Theorem get_indexing_queryset_pages (self : Document) (table : list Model)
    (filter_ exclude : option (Model → bool)) (count : option nat) :
  1 ≤ queryset_pagination self →
  let P := queryset_pagination self in
  let records := rows (get_queryset table filter_ exclude count) in
  let N := length records in
  ∃ objs pulls,
    (∀ fuel, ceil_div N P < fuel →
       get_indexing_queryset self table filter_ exclude count fuel = Some (objs, pulls)) ∧
    objs ≡ₚ records ∧
    length objs = N ∧
    pulls = (λ k, (k * P, k * P + P)) <$> seq 0 (ceil_div N P) ∧
    length pulls = ceil_div N P ∧
    (count = None → Sorted pk_le objs) ∧
    (is_Some count → objs = records).
Proof.
  intros HP P records N.
  set (qs0 := get_queryset table filter_ exclude count).
  set (qs := if negb (is_sliced qs0) then qs_order_by_pk qs0 else qs0).
  assert (rows qs ≡ₚ records) as Hperm.
  { unfold qs. destruct (is_sliced qs0); simpl; [reflexivity|].
    apply merge_sort_Permutation. }
  assert (length (rows qs) = N) as Hlen by (unfold N; rewrite Hperm; reflexivity).
  exists (rows qs), ((λ k, (k * P, k * P + P)) <$> seq 0 (ceil_div N P)).
  split; [|split; [exact Hperm|split; [exact Hlen|split; [reflexivity|split; [|split]]]]].
  - intros fuel Hfuel. unfold get_indexing_queryset. fold qs0. fold qs. fold P.
    pose proof (indexing_loop_from_page qs P HP fuel 0) as Hloop.
    cbv zeta in Hloop. rewrite Hlen in *. simpl in Hloop.
    rewrite Nat.sub_0_r in Hloop. apply Hloop; lia.
  - rewrite length_fmap, length_seq. reflexivity.
  - intros Hc. unfold qs, qs0. rewrite get_queryset_is_sliced, Hc. simpl.
    apply Sorted_merge_sort, _.
  - intros Hc. unfold qs, qs0, records. rewrite get_queryset_is_sliced.
    rewrite bool_decide_eq_true_2 by exact Hc. reflexivity.
Qed.

Lemma get_indexing_queryset_pages_witness :
  ∃ objs pulls,
    get_indexing_queryset (Examples.article_document "idx" 2)
      [Examples.a3; Examples.a1; Examples.a2] None None None 3 = Some (objs, pulls) ∧
    objs ≡ₚ [Examples.a3; Examples.a1; Examples.a2] ∧
    length objs = 3 ∧
    pulls = [(0, 2); (2, 4)] ∧
    Sorted pk_le objs.
Proof.
  destruct (get_indexing_queryset_pages (Examples.article_document "idx" 2)
              [Examples.a3; Examples.a1; Examples.a2] None None None)
    as (objs & pulls & Hrun & Hperm & Hlen & Hpulls & _ & Hsorted & _).
  - simpl. lia.
  - exists objs, pulls. split; [apply Hrun; vm_compute; lia|].
    split; [exact Hperm|]. split; [exact Hlen|]. split; [exact Hpulls|].
    apply Hsorted. reflexivity.
Defined.

(* ===================================================================== *)
(** * The alias and its holders *)
(* ===================================================================== *)

Lemma elem_of_alias_names (alias : string) (st : index_store) :
  alias ∈ alias_names st ↔ ∃ index al, st !! index = Some al ∧ alias ∈ al.
Proof.
  unfold alias_names. rewrite elem_of_union_list. split.
  - intros (al & Hal & Hin). apply list_elem_of_fmap in Hal as ([index al'] & -> & Hkv).
    apply elem_of_map_to_list in Hkv. exists index, al'. split; assumption.
  - intros (index & al & Hlk & Hin). exists al. split; [|exact Hin].
    apply list_elem_of_fmap. exists (index, al). split; [reflexivity|].
    apply elem_of_map_to_list. exact Hlk.
Qed.

Lemma elem_of_alias_holders (alias index : string) (st : index_store) :
  index ∈ alias_holders alias st ↔ ∃ al, st !! index = Some al ∧ alias ∈ al.
Proof.
  unfold alias_holders. rewrite elem_of_dom. split.
  - intros [al Hal]. apply map_lookup_filter_Some in Hal as [Hlk Hin].
    exists al. split; assumption.
  - intros (al & Hlk & Hin). exists al. apply map_lookup_filter_Some.
    split; assumption.
Qed.

Lemma store_exists_alias_true (index alias : string) (st : index_store) :
  store_exists_alias index alias st = true ↔ index ∈ alias_holders alias st.
Proof.
  rewrite elem_of_alias_holders. unfold store_exists_alias.
  destruct (st !! index) as [al|]; split.
  - intros H%bool_decide_eq_true. exists al. split; [reflexivity | exact H].
  - intros (al' & [= <-] & Hin). apply bool_decide_eq_true. exact Hin.
  - discriminate.
  - intros (al' & [=] & _).
Qed.

Lemma store_exists_false (name : string) (st : index_store) :
  store_exists name st = false ↔ (name ∉ dom st) ∧ (name ∉ alias_names st).
Proof.
  unfold store_exists. rewrite orb_false_iff, !bool_decide_eq_false. reflexivity.
Qed.

Lemma store_exists_true (name : string) (st : index_store) :
  store_exists name st = true ↔ name ∈ dom st ∨ name ∈ alias_names st.
Proof.
  unfold store_exists. rewrite orb_true_iff, !bool_decide_eq_true. reflexivity.
Qed.

Lemma first_with_alias_eq (alias : string) (indices : list string) (c : client) :
  first_with_alias alias indices c = (Ok (first_holder alias (store c) indices), c).
Proof.
  induction indices as [|index rest IH]; [reflexivity|].
  simpl. unfold eng_bind, indices_exists_alias, query. simpl.
  destruct (store_exists_alias index alias (store c)); [reflexivity | exact IH].
Qed.

Lemma first_holder_Some (alias : string) (st : index_store) (indices : list string)
    (g : string) :
  first_holder alias st indices = Some g →
  ∃ before after,
    indices = before ++ g :: after ∧
    store_exists_alias g alias st = true ∧
    Forall (λ i, store_exists_alias i alias st = false) before.
Proof.
  induction indices as [|index rest IH]; [discriminate|].
  simpl. destruct (store_exists_alias index alias st) eqn:Hh.
  - intros [= <-]. exists [], rest. repeat split; [exact Hh | constructor].
  - intros Hg. destruct (IH Hg) as (before & after & -> & Hheld & Hbefore).
    exists (index :: before), after. repeat split; [exact Hheld|].
    constructor; assumption.
Qed.

Lemma first_holder_None (alias : string) (st : index_store) (indices : list string) :
  first_holder alias st indices = None ↔
  ∀ g, g ∈ indices → store_exists_alias g alias st = false.
Proof.
  induction indices as [|index rest IH]; simpl.
  - split; [intros _ g Hg; inversion Hg | reflexivity].
  - destruct (store_exists_alias index alias st) eqn:Hh.
    + split; [discriminate|]. intros H. rewrite (H index) in Hh; [discriminate|].
      apply list_elem_of_here.
    + rewrite IH. split.
      * intros H g Hg. apply elem_of_cons in Hg as [->|Hg]; [exact Hh | exact (H g Hg)].
      * intros H g Hg. apply H. apply list_elem_of_further. exact Hg.
Qed.

Lemma get_active_index_eq (cls : Document) (c : client) :
  get_active_index cls c
  = (Ok (first_holder (_index_name cls) (store c) (generations cls (store c))), c).
Proof.
  unfold get_active_index, eng_bind. rewrite get_all_indices_eq.
  apply first_with_alias_eq.
Qed.

(** Whatever the engine answers, a request that was sent is in the log. *)
Lemma send_requests (r : request) (f : index_store → outcome index_store) (c : client) :
  requests (send r f c).2 = requests c ++ [r].
Proof. unfold send. destruct (f (store c)); reflexivity. Qed.

Lemma send_Ok (r : request) (f : index_store → outcome index_store) (c : client)
    (st' : index_store) :
  f (store c) = Ok st' →
  send r f c = (Ok tt, {| store := st'; requests := requests c ++ [r] |}).
Proof. unfold send. intros ->. reflexivity. Qed.

Lemma send_Raised (r : request) (f : index_store → outcome index_store) (c : client)
    (e : engine_error) :
  f (store c) = Raised e →
  send r f c = (Raised e, {| store := store c; requests := requests c ++ [r] |}).
Proof. unfold send. intros ->. reflexivity. Qed.

(** [migrate], step by step: the batch is submitted right away when an
    active index was found or nothing answers to the base name; otherwise
    the base name is deleted first. *)
Lemma migrate_run (cls : Document) (suffix : option string) (c : client) :
  let active := first_holder (_index_name cls) (store c) (generations cls (store c)) in
  let batch := actions_on_aliases cls suffix active in
  migrate cls suffix c
  = match active with
    | Some _ => indices_update_aliases batch c
    | None =>
        if store_exists (_index_name cls) (store c)
        then (indices_delete (_index_name cls) ;;ᴱ indices_update_aliases batch) c
        else indices_update_aliases batch c
    end.
Proof.
  cbv zeta. unfold migrate, eng_bind at 1. rewrite get_active_index_eq.
  destruct (first_holder _ _ _) as [g|]; simpl; [reflexivity|].
  unfold eng_bind, indices_exists, query. simpl.
  destruct (store_exists (_index_name cls) (store c)); reflexivity.
Qed.

(** C3, as the claim states it, fails: when the target index itself holds
    the alias, and no other generation does, a remove action is still put in
    front of the add action. *)
Lemma migrate_removes_alias_from_target_itself :
  let cls := Examples.article_document "idx" 2 in
  let c := Examples.client_of {["idx--v1" := {["idx"]}]} in
  requests (migrate cls (Some "v1") c).2
  = [ReqUpdateAliases [Remove "idx--v1" "idx"; Add "idx--v1" "idx"]] ∧
  ¬ ∃ g, g ≠ get_index_name cls (Some "v1") ∧
         g ∈ generations cls (store c) ∧
         store_exists_alias g "idx" (store c) = true.
Proof.
  cbv zeta. split; [by vm_compute|].
  intros (g & Hne & Hg & _). apply Hne. clear Hne.
  assert (generations (Examples.article_document "idx" 2)
            (store (Examples.client_of {["idx--v1" := {["idx"]}]})) = ["idx--v1"])
    as Hgens by (by vm_compute).
  rewrite Hgens in Hg. apply list_elem_of_singleton in Hg as ->. reflexivity.
Qed.

(** C3 (amended): the batch [migrate] builds always ends with the action
    adding the alias [B] to the index named from [(B, S)]; a remove action
    is put in front of it if and only if some generation holds the alias
    [B], the target index itself included, and it names the first such
    generation in name order.  That batch is what [migrate] submits, after
    deleting the bare base name when it answers and no generation holds the
    alias; only when that deletion is refused (the base name is an alias of
    an index outside the generations) is nothing submitted. *)
Theorem migrate_alias_actions (cls : Document) (suffix : option string) (c : client) :
  let B := _index_name cls in
  let target := get_index_name cls suffix in
  ∃ active batch,
    get_active_index cls c = (Ok active, c) ∧
    batch = actions_on_aliases cls suffix active ∧
    last batch = Some (Add target B) ∧
    ((∃ g, batch = [Remove g B; Add target B]) ↔
     (∃ g, g ∈ generations cls (store c) ∧ store_exists_alias g B (store c) = true)) ∧
    (∀ g, active = Some g →
          batch = [Remove g B; Add target B] ∧
          ∃ before after,
            generations cls (store c) = before ++ g :: after ∧
            store_exists_alias g B (store c) = true ∧
            Forall (λ i, store_exists_alias i B (store c) = false) before) ∧
    (active = None → batch = [Add target B]) ∧
    (requests (migrate cls suffix c).2 = requests c ++ [ReqUpdateAliases batch] ∨
     requests (migrate cls suffix c).2
     = requests c ++ [ReqDelete B; ReqUpdateAliases batch] ∨
     (requests (migrate cls suffix c).2 = requests c ++ [ReqDelete B] ∧
      (migrate cls suffix c).1 = Raised (IndexNotFound B) ∧
      active = None ∧ (B ∉ dom (store c)) ∧ B ∈ alias_names (store c))).
Proof.
  intros B target.
  exists (first_holder B (store c) (generations cls (store c))).
  eexists. split; [apply get_active_index_eq|]. split; [reflexivity|].
  pose proof (migrate_run cls suffix c) as Hrun. cbv zeta in Hrun. fold B in Hrun.
  destruct (first_holder B (store c) (generations cls (store c))) as [g|] eqn:Hact.
  - unfold actions_on_aliases. fold B target.
    split; [reflexivity|]. split; [|split; [|split]].
    + split; [|intros _; exists g; reflexivity].
      intros _. apply first_holder_Some in Hact as (before & after & Hgens & Hheld & _).
      exists g. split; [|exact Hheld]. rewrite Hgens.
      apply elem_of_app. right. apply list_elem_of_here.
    + intros g' [= <-]. split; [reflexivity|]. apply first_holder_Some. exact Hact.
    + discriminate.
    + left. rewrite Hrun. apply send_requests.
  - unfold actions_on_aliases. fold B target.
    split; [reflexivity|]. split; [|split; [|split]].
    + split; [intros [g [=]]|].
      intros (g & Hg & Hheld).
      rewrite (proj1 (first_holder_None _ _ _) Hact g Hg) in Hheld. discriminate.
    + discriminate.
    + reflexivity.
    + rewrite Hrun. destruct (store_exists B (store c)) eqn:Hex.
      * unfold eng_bind, indices_delete.
        destruct (store c !! B) as [al|] eqn:HB.
        -- right. left.
           rewrite (send_Ok _ _ _ (delete B (store c)))
             by (unfold store_delete; rewrite HB; reflexivity).
           unfold indices_update_aliases. rewrite send_requests. simpl.
           rewrite <- app_assoc. reflexivity.
        -- right. right.
           rewrite (send_Raised _ _ _ (IndexNotFound B))
             by (unfold store_delete; rewrite HB; reflexivity).
           simpl. repeat split.
           ++ apply not_elem_of_dom. exact HB.
           ++ apply store_exists_true in Hex as [Hdom|Hal]; [|exact Hal].
              apply elem_of_dom in Hdom as [al Hal]. congruence.
      * left. apply send_requests.
Qed.




(* ===================================================================== *)
(** * Initialising twice *)
(* ===================================================================== *)

Lemma only_holder_alias_holders (alias index : string) (st : index_store) :
  only_holder alias index st → alias_holders alias st = {[index]}.
Proof.
  intros [Hheld Hothers]. apply set_eq. intros i.
  rewrite elem_of_alias_holders, elem_of_singleton. split.
  - intros (al & Hlk & Hin). destruct (decide (i = index)) as [->|Hne]; [reflexivity|].
    exfalso. exact (Hothers i al Hne Hlk Hin).
  - intros ->. exact Hheld.
Qed.

Lemma only_holder_create (alias index name : string) (st : index_store) :
  only_holder alias index st → st !! name = None →
  only_holder alias index (<[name := ∅]> st).
Proof.
  intros [(al & Hlk & Hin) Hothers] Hfresh.
  assert (name ≠ index) as Hne by congruence.
  split.
  - exists al. rewrite lookup_insert_ne by exact Hne. split; assumption.
  - intros i al' Hi Hlk'. destruct (decide (name = i)) as [->|Hni].
    + rewrite lookup_insert_eq in Hlk'. injection Hlk' as <-. apply not_elem_of_empty.
    + rewrite lookup_insert_ne in Hlk' by exact Hni. exact (Hothers i al' Hi Hlk').
Qed.

Lemma only_holder_active (cls : Document) (s : string) (c : client) :
  only_holder (_index_name cls) (_index_name cls +:+ "--" +:+ s) (store c) →
  get_active_index cls c = (Ok (Some (_index_name cls +:+ "--" +:+ s)), c).
Proof.
  intros Honly. rewrite get_active_index_eq. f_equal. f_equal.
  pose proof (only_holder_alias_holders _ _ _ Honly) as Hholders.
  destruct (first_holder _ _ _) as [g|] eqn:Hact.
  - apply first_holder_Some in Hact as (_ & _ & _ & Hheld & _).
    apply store_exists_alias_true in Hheld. rewrite Hholders in Hheld.
    apply elem_of_singleton in Hheld as ->. reflexivity.
  - exfalso.
    assert (store_exists_alias (_index_name cls +:+ "--" +:+ s) (_index_name cls)
              (store c) = true) as Hheld.
    { apply store_exists_alias_true. rewrite Hholders. apply elem_of_singleton.
      reflexivity. }
    rewrite (proj1 (first_holder_None _ _ _) Hact) in Hheld; [discriminate|].
    apply elem_of_generations. split.
    + change (_index_name cls +:+ VERSION_NAME_SEPARATOR +:+ "*")
        with (_index_name cls +:+ "--" +:+ "*").
      rewrite <- !append_assoc. apply glob_match_prefix.
    + destruct Honly as [(al & Hlk & _) _]. apply elem_of_dom. eexists; exact Hlk.
Qed.

(** [Index.save]: a create request is sent and accepted when the name does
    not answer; the mappings are pushed, and nothing else changes, when it
    is a concrete index; [KeyError] when it is an alias. *)
Lemma dsl_init_present (name : string) (c : client) :
  name ∈ dom (store c) →
  dsl_init name c
  = (Ok tt, {| store := store c; requests := requests c ++ [ReqPutMapping name] |}).
Proof.
  intros Hdom.
  assert (store_exists name (store c) = true) as Hex
    by (apply store_exists_true; left; exact Hdom).
  unfold dsl_init, eng_bind, indices_exists, indices_get_settings, query. simpl.
  rewrite Hex. simpl. unfold store_get_settings.
  rewrite (bool_decide_eq_true_2 _ Hdom).
  rewrite bool_decide_eq_true_2 by (apply list_elem_of_here).
  unfold indices_put_mapping. apply send_Ok.
  unfold store_put_mapping. rewrite Hex. reflexivity.
Qed.

Lemma dsl_init_alias (name : string) (c : client) :
  name ∉ dom (store c) →
  name ∈ alias_names (store c) →
  dsl_init name c = (Raised (KeyError name), c).
Proof.
  intros Hdom Hal.
  assert (store_exists name (store c) = true) as Hex
    by (apply store_exists_true; right; exact Hal).
  unfold dsl_init, eng_bind, indices_exists, indices_get_settings, query. simpl.
  rewrite Hex. simpl. unfold store_get_settings.
  rewrite (bool_decide_eq_false_2 _ Hdom).
  rewrite bool_decide_eq_false_2; [reflexivity|].
  intros Hin%elem_of_elements. apply Hdom.
  apply elem_of_alias_holders in Hin as (al & Hlk & _). apply elem_of_dom. eauto.
Qed.

Lemma dsl_init_absent (name : string) (c : client) :
  store_exists name (store c) = false →
  dsl_init name c
  = (Ok tt, {| store := <[name := ∅]> (store c);
               requests := requests c ++ [ReqCreate name] |}).
Proof.
  intros Hex. unfold dsl_init, eng_bind, indices_exists, query. simpl.
  rewrite Hex. simpl. unfold indices_create. apply send_Ok.
  unfold store_create. rewrite Hex. reflexivity.
Qed.

Lemma get_index_name_suffixed (cls : Document) (s : string) :
  s ≠ EmptyString → get_index_name cls (Some s) = _index_name cls +:+ "--" +:+ s.
Proof.
  intros Hs. unfold get_index_name, truthy.
  destruct (String.eqb_spec s EmptyString) as [->|_]; [contradiction | reflexivity].
Qed.

Lemma base_name_not_suffixed (B s : string) : B ≠ B +:+ "--" +:+ s.
Proof.
  induction B as [|x B IH]; [discriminate|].
  rewrite append_cons. intros [= H]. exact (IH H).
Qed.

(** The first [init]: the generation is there and is the only holder of
    the alias. *)
Lemma init_first (cls : Document) (now : string) (c : client) :
  let B := _index_name cls in
  let first := B +:+ "--" +:+ now in
  store_exists B (store c) = false →
  now ≠ EmptyString →
  first ∉ alias_names (store c) →
  (init cls None now c).1 = Ok tt ∧
  only_holder B first (store (init cls None now c).2) ∧
  (∀ a, a ∈ alias_names (store (init cls None now c).2) →
        a = B ∨ a ∈ alias_names (store c)).
Proof.
  cbv zeta.
  remember (_index_name cls) as B eqn:HeqB.
  remember (B +:+ "--" +:+ now) as first eqn:Heqfirst.
  intros HB Hnow Hfirst.
  apply store_exists_false in HB as [HBdom HBalias].
  assert (∀ i al, store c !! i = Some al → B ∉ al) as Hfree.
  { intros i al Hlk Hin. apply HBalias. apply elem_of_alias_names. eauto. }
  (* the concrete index is created unless it is there already *)
  assert (∃ c1 al1,
            dsl_init first c = (Ok tt, c1) ∧
            store c1 = <[first := al1]> (store c) ∧ (B ∉ al1) ∧
            (∀ a, a ∈ al1 → a ∈ alias_names (store c)))
    as (c1 & al1 & Hinit & Hst1 & Hal1 & Hold).
  { destruct (store_exists first (store c)) eqn:Hex.
    - apply store_exists_true in Hex as [Hdom|Hal]; [|contradiction].
      pose proof Hdom as Hdom'. apply elem_of_dom in Hdom' as [al1 Hlk].
      eexists _, al1. split; [|split; [|split]].
      + apply dsl_init_present. exact Hdom.
      + cbn [store]. symmetry. apply insert_id. exact Hlk.
      + exact (Hfree first al1 Hlk).
      + intros a Ha. apply elem_of_alias_names. eauto.
    - eexists _, ∅. split; [apply dsl_init_absent; exact Hex|].
      split; [reflexivity|]. split; [apply not_elem_of_empty|].
      intros a Ha. exfalso. exact (not_elem_of_empty a Ha). }
  assert (B ≠ first) as Hne by (rewrite Heqfirst; apply base_name_not_suffixed).
  assert (∀ i al, store c1 !! i = Some al → B ∉ al) as Hfree1.
  { intros i al. rewrite Hst1. destruct (decide (first = i)) as [<-|Hi].
    - rewrite lookup_insert_eq. intros [= <-]. exact Hal1.
    - rewrite lookup_insert_ne by exact Hi. apply Hfree. }
  assert (store_exists B (store c1) = false) as HB1.
  { apply store_exists_false. split.
    - rewrite Hst1, dom_insert_L. intros [Heq%elem_of_singleton|Hdom]%elem_of_union;
        [exact (Hne Heq) | exact (HBdom Hdom)].
    - intros (i & al & Hlk & Hin)%elem_of_alias_names. exact (Hfree1 i al Hlk Hin). }
  (* the alias is not there yet: migrate *)
  pose proof (migrate_run cls (Some now) c1) as Hrun. cbv zeta in Hrun.
  rewrite <- HeqB in Hrun.
  assert (first_holder B (store c1) (generations cls (store c1)) = None) as Hnone.
  { apply first_holder_None. intros g _.
    destruct (store_exists_alias g B (store c1)) eqn:Hheld; [|reflexivity].
    apply store_exists_alias_true, elem_of_alias_holders in Hheld as (al & Hlk & Hin).
    exfalso. exact (Hfree1 g al Hlk Hin). }
  rewrite Hnone, HB1 in Hrun. unfold actions_on_aliases in Hrun.
  rewrite (get_index_name_suffixed cls now Hnow), <- HeqB, <- Heqfirst in Hrun.
  assert (init cls None now c
          = (Ok tt, {| store := <[first := {[B]} ∪ al1]> (store c1);
                       requests := requests c1 ++ [ReqUpdateAliases [Add first B]] |}))
    as Hrun_init.
  { unfold init. simpl truthy. cbv iota.
    rewrite (get_index_name_suffixed cls now Hnow), <- HeqB, <- Heqfirst.
    unfold eng_bind at 1. rewrite Hinit.
    unfold eng_bind at 1, indices_exists, query. cbn [store]. rewrite HB1.
    cbn [negb]. rewrite Hrun. unfold indices_update_aliases. apply send_Ok.
    cbn [store_update_aliases apply_alias_action].
    rewrite Hst1 at 1. rewrite lookup_insert_eq.
    rewrite bool_decide_eq_false_2; [reflexivity|].
    apply store_exists_false in HB1 as [HB1 _]. exact HB1. }
  rewrite Hrun_init. cbn [fst snd store]. split; [reflexivity|]. split; [split|].
  - exists ({[B]} ∪ al1). rewrite lookup_insert_eq. split; [reflexivity|].
    apply elem_of_union. left. apply elem_of_singleton. reflexivity.
  - intros i al Hi. rewrite lookup_insert_ne by congruence. apply Hfree1.
  - intros a (i & al & Hlk & Hin)%elem_of_alias_names.
    rewrite Hst1, insert_insert_eq in Hlk.
    destruct (decide (first = i)) as [<-|Hi].
    + rewrite lookup_insert_eq in Hlk. injection Hlk as <-.
      apply elem_of_union in Hin as [->%elem_of_singleton|Hin]; [left; reflexivity|].
      right. exact (Hold a Hin).
    + rewrite lookup_insert_ne in Hlk by exact Hi.
      right. apply elem_of_alias_names. eauto.
Qed.

(** A later [init] finds the base name answering (the alias) and does not
    call [migrate]: the alias stays where it is. *)
Lemma init_again (cls : Document) (suffix : option string) (now index : string)
    (c : client) :
  only_holder (_index_name cls) index (store c) →
  get_index_name cls (if truthy suffix then suffix else Some now)
    ∉ alias_names (store c) →
  (init cls suffix now c).1 = Ok tt ∧
  only_holder (_index_name cls) index (store (init cls suffix now c).2) ∧
  get_index_name cls (if truthy suffix then suffix else Some now)
    ∈ dom (store (init cls suffix now c).2).
Proof.
  intros Honly.
  set (suffix' := if truthy suffix then suffix else Some now).
  set (name := get_index_name cls suffix'). intros Hna.
  assert (∃ c1, dsl_init name c = (Ok tt, c1) ∧
                only_holder (_index_name cls) index (store c1) ∧
                name ∈ dom (store c1))
    as (c1 & Hinit & Honly1 & Hname).
  { destruct (store_exists name (store c)) eqn:Hex.
    - apply store_exists_true in Hex as [Hdom|Hal]; [|contradiction].
      eexists. split; [apply dsl_init_present; exact Hdom|]. split; assumption.
    - eexists. split; [apply dsl_init_absent; exact Hex|]. simpl. split.
      + apply only_holder_create; [exact Honly|].
        apply store_exists_false in Hex as [Hdom _]. apply not_elem_of_dom. exact Hdom.
      + rewrite dom_insert_L.
        apply elem_of_union. left. apply elem_of_singleton. reflexivity. }
  assert (store_exists (_index_name cls) (store c1) = true) as HB.
  { apply store_exists_true. right. apply elem_of_alias_names.
    destruct Honly1 as [(al & Hlk & Hin) _]. eauto. }
  assert (init cls suffix now c = (Ok tt, c1)) as Hrun.
  { unfold init. fold suffix'. fold name.
    unfold eng_bind at 1. rewrite Hinit.
    unfold eng_bind, indices_exists, query. cbn [store]. rewrite HB. reflexivity. }
  rewrite Hrun. cbn [fst snd]. split; [reflexivity|]. split; assumption.
Qed.

(** C1, as the claim states it, fails: after [init] with the default
    suffix and then [init] with another suffix, one generation holds the
    alias, but it is the first one, not the one of the latest call. *)
Lemma init_twice_alias_not_on_latest :
  let cls := Examples.article_document "idx" 2 in
  let c1 := (init cls None "20240101120000000000" Examples.empty_client).2 in
  let c2 := (init cls (Some "v2") "20240101120000000001" c1).2 in
  generations cls (store c2) = ["idx--20240101120000000000"; "idx--v2"] ∧
  alias_holders "idx" (store c2) = {["idx--20240101120000000000"]} ∧
  alias_holders "idx" (store c2) ≠ {[get_index_name cls (Some "v2")]}.
Proof.
  cbv zeta. split; [by vm_compute|]. split; [by vm_compute|].
  intros Heq. vm_compute in Heq. discriminate Heq.
Qed.

(** C1 (amended): for every base name [B] that does not answer yet
    (neither as an index nor as an alias), with the names of the two
    generations not in use as alias names: after [init] with the defaulted
    suffix and then [init] with any other suffix, both calls succeed,
    exactly one concrete generation holds the alias [B], and it is the one
    created by the first call; the generation of the second call exists and
    does not hold the alias ([init] calls [migrate] only while the base name
    does not answer). *)
Theorem init_twice_alias_stays_on_first (cls : Document) (now1 now2 other : string)
    (c : client) :
  let B := _index_name cls in
  let first := get_index_name cls (Some now1) in
  let second := get_index_name cls (Some other) in
  store_exists B (store c) = false →
  now1 ≠ EmptyString →
  other ≠ EmptyString →
  other ≠ now1 →
  first ∉ alias_names (store c) →
  second ∉ alias_names (store c) →
  let r1 := init cls None now1 c in
  let r2 := init cls (Some other) now2 r1.2 in
  r1.1 = Ok tt ∧ r2.1 = Ok tt ∧
  alias_holders B (store r2.2) = {[first]} ∧
  get_active_index cls r2.2 = (Ok (Some first), r2.2) ∧
  second ≠ first ∧
  second ∈ dom (store r2.2) ∧
  second ∉ alias_holders B (store r2.2).
Proof.
  intros B first second HB Hnow1 Hother Hdiff Hfirst Hsecond r1 r2.
  unfold first, second in *. clear first second.
  rewrite (get_index_name_suffixed cls now1 Hnow1) in *.
  rewrite (get_index_name_suffixed cls other Hother) in *.
  destruct (init_first cls now1 c HB Hnow1 Hfirst) as (Hok1 & Honly1 & Hnames1).
  fold r1 in Hok1, Honly1, Hnames1.
  assert (truthy (Some other) = true) as Htruthy.
  { unfold truthy. apply negb_true_iff, String.eqb_neq. exact Hother. }
  destruct (init_again cls (Some other) now2 _ r1.2 Honly1) as (Hok2 & Honly2 & Hex2).
  { rewrite Htruthy, (get_index_name_suffixed cls other Hother).
    intros Hal. apply Hnames1 in Hal as [Heq|Hal]; [|exact (Hsecond Hal)].
    symmetry in Heq. exact (base_name_not_suffixed _ _ Heq). }
  fold r2 in Hok2, Honly2, Hex2. fold B in Honly2.
  rewrite Htruthy, (get_index_name_suffixed cls other Hother) in Hex2.
  assert (B +:+ "--" +:+ other ≠ B +:+ "--" +:+ now1) as Hne.
  { intros Heq. apply Hdiff. do 2 apply String.app_inj in Heq. exact Heq. }
  split; [exact Hok1|]. split; [exact Hok2|].
  rewrite (only_holder_alias_holders _ _ _ Honly2).
  split; [reflexivity|]. split; [apply only_holder_active; exact Honly2|].
  split; [exact Hne|]. split.
  - exact Hex2.
  - intros Hin%elem_of_singleton. exact (Hne Hin).
Qed.

Lemma init_twice_alias_stays_on_first_witness :
  let cls := Examples.article_document "idx" 2 in
  let r1 := init cls None "20240101120000000000" Examples.empty_client in
  let r2 := init cls (Some "v2") "20240101120000000001" r1.2 in
  r1.1 = Ok tt ∧ r2.1 = Ok tt ∧
  alias_holders "idx" (store r2.2) = {["idx--20240101120000000000"]} ∧
  "idx--v2" ∉ alias_holders "idx" (store r2.2).
Proof.
  cbv zeta.
  destruct (init_twice_alias_stays_on_first (Examples.article_document "idx" 2)
              "20240101120000000000" "20240101120000000001" "v2" Examples.empty_client)
    as (H1 & H2 & H3 & _ & _ & _ & H4).
  - by vm_compute.
  - discriminate.
  - discriminate.
  - discriminate.
  - by vm_compute.
  - by vm_compute.
  - split; [exact H1|]. split; [exact H2|]. split; [exact H3 | exact H4].
Defined.

(* ===================================================================== *)
(** * The field mapping *)
(* ===================================================================== *)

Lemma dict_get_Some_elem {K V : Type} `{EqDecision K} (d : list (K * V)) (key : K) (v : V) :
  dict_get d key = Some v → (key, v) ∈ d.
Proof.
  induction d as [|[k v'] d IH]; [discriminate|]. simpl.
  destruct (dict_get d key) as [w|] eqn:Hrest.
  - intros [= <-]. apply list_elem_of_further, IH. reflexivity.
  - destruct (decide (k = key)) as [->|_]; [|discriminate].
    intros [= <-]. apply list_elem_of_here.
Qed.

Lemma dict_get_None_elem {K V : Type} `{EqDecision K} (d : list (K * V)) (key : K) :
  dict_get d key = None ↔ key ∉ d.*1.
Proof.
  induction d as [|[k v'] d IH]; simpl.
  - split; [intros _ H; inversion H | reflexivity].
  - rewrite not_elem_of_cons. destruct (dict_get d key) as [w|] eqn:Hrest.
    + split; [discriminate|]. intros [_ Hd]. apply IH in Hd. discriminate.
    + destruct (decide (k = key)) as [->|Hne].
      * split; [discriminate|]. intros [Hk _]. contradiction.
      * split; [|reflexivity]. intros _. split; [congruence|]. apply IH. reflexivity.
Qed.

(** X1: [to_field] answers for exactly the model field classes the table
    names; the field it builds is of the class the table gives and reads the
    attribute called like the model field.  For any other class, a subclass
    of a mapped class included, it raises [ModelFieldNotMappedError], and the
    message names the field.  Each class has one entry in the table. *)
Theorem to_field_total_on_table (field_name : string) (cls : models.field_class) :
  NoDup (model_field_class_to_field_class.*1) ∧
  match to_field field_name cls with
  | inl field =>
      attr field = field_name ∧
      (cls, os_class field) ∈ model_field_class_to_field_class
  | inr e =>
      (cls ∉ model_field_class_to_field_class.*1) ∧
      (∃ qualname, cls = models.Other qualname) ∧
      e = ModelFieldNotMapped
            ("Cannot convert model field " +:+ field_name +:+ " to an Opensearch field!")
  end.
Proof.
  split.
  - apply NoDup_ListNoDup. vm_compute.
    repeat (constructor; [intros Hin; simpl in Hin; intuition discriminate|]).
    constructor.
  - unfold to_field.
    destruct (dict_get model_field_class_to_field_class cls) as [fc|] eqn:Hget.
    + split; [reflexivity|]. apply dict_get_Some_elem. exact Hget.
    + split; [apply dict_get_None_elem; exact Hget|]. split; [|reflexivity].
      destruct cls; try discriminate Hget. eexists. reflexivity.
Qed.

(* ===================================================================== *)
(** * Preparers and the prepared mapping *)
(* ===================================================================== *)

Lemma dict_get_app_last {K V : Type} `{EqDecision K} (before after : list (K * V))
    (key : K) (v : V) :
  key ∉ after.*1 → dict_get (before ++ (key, v) :: after) key = Some v.
Proof.
  intros Hafter. apply dict_get_None_elem in Hafter.
  induction before as [|[k w] before IH]; simpl.
  - rewrite Hafter. rewrite decide_True by reflexivity. reflexivity.
  - rewrite IH. reflexivity.
Qed.

Lemma foldl_insert_lookup (l : list (string * (Model → field_value))) (m : Model)
    (acc : gmap string field_value) (name : string) :
  foldl (λ data p, <[p.1 := p.2 m]> data) acc l !! name
  = match dict_get l name with
    | Some f => Some (f m)
    | None => acc !! name
    end.
Proof.
  revert acc. induction l as [|[k f] l IH]; intros acc; [reflexivity|].
  simpl. rewrite IH. destruct (dict_get l name) as [g|]; [reflexivity|].
  destruct (decide (k = name)) as [->|Hne].
  - apply lookup_insert_eq.
  - apply lookup_insert_ne. exact Hne.
Qed.

(** X2: the mapping [prepare] returns has exactly the names of the compiled
    preparers as keys, and under each name the value its preparer extracts
    from the instance; when a name occurs more than once, the last preparer
    for it counts. *)
Theorem prepare_keys_and_values (self : Document) (m : Model) :
  (∀ name, name ∈ dom (prepare self m) ↔ name ∈ (_prepared_fields self).*1) ∧
  (∀ before after name f,
     _prepared_fields self = before ++ (name, f) :: after →
     name ∉ after.*1 →
     prepare self m !! name = Some (f m)).
Proof.
  unfold prepare. split.
  - intros name. rewrite elem_of_dom, foldl_insert_lookup, lookup_empty.
    destruct (dict_get (_prepared_fields self) name) as [f|] eqn:Hget.
    + split; [intros _|intros _; eexists; reflexivity].
      apply dict_get_Some_elem in Hget. apply list_elem_of_fmap.
      exists (name, f). split; [reflexivity | exact Hget].
    + split; [intros [v Hv]; discriminate|].
      intros Hin. apply dict_get_None_elem in Hget. contradiction.
  - intros before after name f Hfields Hafter.
    rewrite foldl_insert_lookup, Hfields, (dict_get_app_last _ _ _ _ Hafter).
    reflexivity.
Qed.

Lemma prepare_keys_and_values_witness :
  prepare (Examples.article_document "idx" 2) Examples.a1 !! "title" = Some (FStr "one").
Proof.
  rewrite (proj2 (prepare_keys_and_values (Examples.article_document "idx" 2) Examples.a1)
             [] [] "title" (λ m, default FNone (attrs m !! "title"))).
  - reflexivity.
  - reflexivity.
  - intros Hin. inversion Hin.
Defined.

Lemma init_prepare_loop_names (decl : Declaration) (ign : option Model)
    (index_fields : list (string * Field)) :
  (λ p, p.1.1) <$> init_prepare_loop decl ign index_fields
  = (filter (λ nf, is_dod nf.2 = true) index_fields).*1.
Proof.
  induction index_fields as [|[name field] rest IH]; [reflexivity|].
  simpl. rewrite filter_cons. simpl.
  destruct (is_dod field); simpl; [f_equal|]; exact IH.
Qed.

(** X3: [init_prepare] compiles one preparer for each field that is a
    [DODField], in the order of the declaration, and skips the others.  A
    field without a path gets the path [[name]], a field with a path keeps
    it, so every compiled field has a path.  The callable is
    [prepare_<name>_with_related] bound to the instance to ignore when the
    class has one, else [prepare_<name>] when the class has one, else the
    field's own extractor, reading the field's path, bound to the instance
    to ignore. *)
Theorem init_prepare_compiles (decl : Declaration) (ign : option Model) :
  let compiled := init_prepare decl ign in
  (λ p, p.1.1) <$> compiled
  = (filter (λ nf, is_dod nf.2 = true) (_fields decl)).*1 ∧
  Forall (λ p, _path p.1.2 ≠ []) compiled ∧
  Forall (λ p, ∃ field,
            (p.1.1, field) ∈ _fields decl ∧ is_dod field = true ∧
            _path p.1.2 = match _path field with [] => [p.1.1] | path => path end ∧
            ∀ instance, p.2 instance = resolved_preparer decl ign p.1.1 field instance)
         compiled.
Proof.
  cbv zeta. unfold init_prepare. split; [apply init_prepare_loop_names|].
  induction (_fields decl) as [|[name field] rest IH]; [split; constructor|].
  destruct IH as [IHpath IHres]. simpl.
  destruct (is_dod field) eqn:Hdod; simpl.
  - split.
    + constructor; [|exact IHpath]. simpl.
      destruct (_path field) as [|x path] eqn:Hp; simpl; [discriminate|].
      rewrite Hp. discriminate.
    + constructor.
      * simpl. exists field. split; [apply list_elem_of_here|]. split; [exact Hdod|].
        split.
        -- destruct (_path field) as [|x path] eqn:Hp; simpl; [reflexivity | exact Hp].
        -- intros instance. unfold resolved_preparer.
           destruct (prepare_with_related decl !! name); [reflexivity|].
           destruct (prepare_plain decl !! name); [reflexivity|].
           unfold get_value_from_instance.
           destruct (_path field) as [|x path] eqn:Hp; simpl; [reflexivity|].
           rewrite Hp. reflexivity.
      * eapply Forall_impl; [exact IHres|]. intros p (field0 & Hin & Hrest).
        exists field0. split; [apply list_elem_of_further; exact Hin | exact Hrest].
  - split; [exact IHpath|].
    eapply Forall_impl; [exact IHres|]. intros p (field0 & Hin & Hrest).
    exists field0. split; [apply list_elem_of_further; exact Hin | exact Hrest].
Qed.

Lemma compiled_dict_get_absent (decl : Declaration) (ign : option Model)
    (index_fields : list (string * Field)) (name : string) :
  name ∉ index_fields.*1 →
  dict_get ((λ p, (p.1.1, p.2)) <$> init_prepare_loop decl ign index_fields) name = None.
Proof.
  intros Hname. apply dict_get_None_elem. intros Hin. apply Hname.
  rewrite <- list_fmap_compose in Hin.
  assert (name ∈ (λ p : string * Field * (Model → field_value), p.1.1)
                   <$> init_prepare_loop decl ign index_fields) as Hin'.
  { apply list_elem_of_fmap in Hin as (p & -> & Hp). apply list_elem_of_fmap.
    exists p. split; [reflexivity | exact Hp]. }
  rewrite init_prepare_loop_names in Hin'.
  apply list_elem_of_fmap in Hin' as (nf & -> & Hnf).
  apply list_elem_of_filter in Hnf as [_ Hnf].
  apply list_elem_of_fmap. exists nf. split; [reflexivity | exact Hnf].
Qed.

Lemma compiled_dict_get_declared (decl : Declaration) (ign : option Model)
    (index_fields : list (string * Field)) (name : string) (field : Field) :
  NoDup index_fields.*1 →
  (name, field) ∈ index_fields →
  match dict_get ((λ p, (p.1.1, p.2)) <$> init_prepare_loop decl ign index_fields) name with
  | Some fn => is_dod field = true ∧
               ∀ instance, fn instance = resolved_preparer decl ign name field instance
  | None => is_dod field = false
  end.
Proof.
  induction index_fields as [|[n0 f0] rest IH]; intros Hnd Hin; [inversion Hin|].
  simpl in Hnd. apply NoDup_cons in Hnd as [Hn0 Hnd].
  apply elem_of_cons in Hin as [[= -> ->]|Hin].
  - pose proof (compiled_dict_get_absent decl ign rest n0 Hn0) as Habs.
    simpl. destruct (is_dod f0) eqn:Hdod; simpl; unfold fmap in Habs |- *; rewrite Habs.
    + rewrite decide_True by reflexivity. split; [reflexivity|].
      intros instance. unfold resolved_preparer.
      destruct (prepare_with_related decl !! n0); [reflexivity|].
      destruct (prepare_plain decl !! n0); [reflexivity|].
      unfold get_value_from_instance.
      destruct (_path f0) as [|x path] eqn:Hp; simpl; [reflexivity|].
      rewrite Hp. reflexivity.
    + reflexivity.
  - assert (n0 ≠ name) as Hne.
    { intros ->. apply Hn0. apply list_elem_of_fmap. exists (name, field).
      split; [reflexivity | exact Hin]. }
    specialize (IH Hnd Hin). simpl. destruct (is_dod f0); simpl; [|exact IH].
    unfold fmap in IH |- *.
    destruct (dict_get _ name) as [fn|]; [exact IH|].
    rewrite decide_False by exact Hne. exact IH.
Qed.

(** X4: for a new document, [prepare] maps the name of every declared
    [DODField] to the value of its preparer, chosen in this order: the
    class's [prepare_<name>_with_related], called with the instance to
    ignore; else the class's [prepare_<name>]; else the field's own
    extractor on the field's path (or on [[name]] when the field has none),
    called with the instance to ignore.  Fields that are no [DODField] and
    names that are not declared have no entry. *)
Theorem new_document_prepare (decl : Declaration) (ign : option Model) (m : Model) :
  NoDup (_fields decl).*1 →
  (∀ name field, (name, field) ∈ _fields decl →
     prepare (new_document decl ign) m !! name
     = if is_dod field then Some (resolved_preparer decl ign name field m) else None) ∧
  (∀ name, name ∉ (_fields decl).*1 → prepare (new_document decl ign) m !! name = None).
Proof.
  intros Hnd. unfold prepare, new_document, init_prepare. simpl. split.
  - intros name field Hin. rewrite foldl_insert_lookup, lookup_empty.
    pose proof (compiled_dict_get_declared decl ign (_fields decl) name field Hnd Hin) as H.
    destruct (dict_get _ name) as [fn|].
    + destruct H as [-> Hfn]. rewrite Hfn. reflexivity.
    + rewrite H. reflexivity.
  - intros name Hname. rewrite foldl_insert_lookup, lookup_empty.
    rewrite (compiled_dict_get_absent decl ign (_fields decl) name Hname). reflexivity.
Qed.

Lemma new_document_prepare_witness :
  let doc := new_document Examples.article_declaration None in
  prepare doc Examples.a1 !! "title" = Some (FStr "one") ∧
  prepare doc Examples.a1 !! "slug" = Some (FInt 1) ∧
  prepare doc Examples.a1 !! "author" = Some (FStr "ann") ∧
  prepare doc Examples.a1 !! "raw" = None ∧
  prepare doc Examples.a1 !! "body" = None.
Proof.
  cbv zeta.
  destruct (new_document_prepare Examples.article_declaration None Examples.a1)
    as [Hdeclared Habsent].
  - apply NoDup_ListNoDup. vm_compute.
    repeat (constructor; [intros Hin; simpl in Hin; intuition discriminate|]).
    constructor.
  - split; [|split; [|split; [|split]]].
    + rewrite (Hdeclared "title" (Examples.attribute_field true []));
        [reflexivity | apply list_elem_of_here].
    + rewrite (Hdeclared "slug" (Examples.attribute_field true ["title"]));
        [reflexivity | apply list_elem_of_further, list_elem_of_here].
    + rewrite (Hdeclared "author" (Examples.attribute_field true []));
        [reflexivity | do 3 apply list_elem_of_further; apply list_elem_of_here].
    + rewrite (Hdeclared "raw" (Examples.attribute_field false []));
        [reflexivity | do 2 apply list_elem_of_further; apply list_elem_of_here].
    + apply Habsent. intros Hin. apply list_elem_of_In in Hin. simpl in Hin.
      intuition discriminate.
Defined.

(* ===================================================================== *)
(** * More on bulk actions *)
(* ===================================================================== *)

(** X5: a bulk action descriptor has exactly four entries: [_op_type],
    [_index], [_id] and the payload entry.  The operation is the action
    given, the identifier is what [generate_id] returns, and the target is
    the index name given, or the name of the document's index (the alias)
    when none, or an empty one, is given. *)
Theorem _prepare_action_entries (self : Document) (obj : Model) (action : string)
    (index_name : option string) :
  let d := _prepare_action self obj action index_name in
  dom d = {["_op_type"; "_index"; "_id";
            if String.eqb action "update" then "doc" else "_source"]} ∧
  size d = 4 ∧
  d !! "_op_type" = Some (EStr action) ∧
  d !! "_id" = Some (EId (generate_id self obj)) ∧
  d !! "_index"
  = Some (EStr (match index_name with
                | Some n => if String.eqb n EmptyString then _index_name self else n
                | None => _index_name self
                end)).
Proof.
  cbv zeta.
  assert (dom (_prepare_action self obj action index_name)
          = {["_op_type"; "_index"; "_id";
              if String.eqb action "update" then "doc" else "_source"]}) as Hdom.
  { unfold _prepare_action. rewrite !dom_insert_L, dom_empty_L.
    destruct (String.eqb action "update"); simpl; set_solver. }
  split; [exact Hdom|]. split.
  - rewrite <- size_dom, Hdom.
    destruct (String.eqb action "update"); by vm_compute.
  - destruct (_prepare_action_meta self obj action index_name) as [Hop Hid].
    split; [exact Hop|]. split; [exact Hid|].
    unfold _prepare_action.
    rewrite lookup_insert_ne by (destruct (negb (String.eqb action "update")); done).
    rewrite lookup_insert_ne by done. rewrite lookup_insert_eq.
    destruct index_name as [n|]; [|reflexivity]. unfold truthy.
    destruct (String.eqb n EmptyString); reflexivity.
Qed.

(** X6: for a document class that keeps the hooks of the base class
    ([should_index_object] returning [True], [generate_id] returning the
    primary key), [_get_actions] yields one descriptor per record, in the
    order of the records, for every action, and the identifier of each
    descriptor is the primary key of its record. *)
Theorem _get_actions_default_hooks (self : Document) (object_list : list Model)
    (action : string) (index_name : option string) :
  should_index_object self = default_should_index_object →
  generate_id self = default_generate_id →
  length (_get_actions self object_list action index_name) = length object_list ∧
  (λ d : descriptor, d !! "_id") <$> _get_actions self object_list action index_name
  = (λ m, Some (EId (pk m))) <$> object_list.
Proof.
  intros Hshould Hid.
  assert (_get_actions self object_list action index_name
          = (λ obj, _prepare_action self obj action index_name) <$> object_list) as ->.
  { induction object_list as [|obj rest IH]; [reflexivity|].
    simpl. rewrite Hshould. unfold default_should_index_object at 1.
    rewrite orb_true_r, IH. reflexivity. }
  split; [apply length_fmap|].
  rewrite <- list_fmap_compose. apply list_fmap_ext. intros i obj _. simpl.
  rewrite (proj2 (_prepare_action_meta self obj action index_name)), Hid. reflexivity.
Qed.

Lemma _get_actions_default_hooks_witness :
  length (_get_actions (Examples.plain_document "idx" 2)
            [Examples.a1; Examples.a2; Examples.a3] "index" None) = 3 ∧
  (λ d : descriptor, d !! "_id")
    <$> _get_actions (Examples.plain_document "idx" 2)
          [Examples.a1; Examples.a2; Examples.a3] "index" None
  = [Some (EId 1); Some (EId 2); Some (EId 3)].
Proof.
  apply (_get_actions_default_hooks (Examples.plain_document "idx" 2)
           [Examples.a1; Examples.a2; Examples.a3] "index" None); reflexivity.
Defined.

(* ===================================================================== *)
(** * More on the indexing queryset *)
(* ===================================================================== *)

Lemma get_queryset_rows (table : list Model) (filter_ exclude : option (Model → bool))
    (count : option nat) :
  rows (get_queryset table filter_ exclude count)
  = let matching :=
      filter (λ m, hit_by exclude m = false) (filter (λ m, passes filter_ m = true) table) in
    match count with
    | Some n => take n matching
    | None => matching
    end.
Proof.
  assert (∀ l : list Model, filter (λ _, true = true) l = l) as Hall.
  { intros l. induction l as [|x l IH]; [reflexivity|].
    rewrite filter_cons, decide_True by reflexivity. rewrite IH. reflexivity. }
  assert (∀ l : list Model, filter (λ _, false = false) l = l) as Hnone.
  { intros l. induction l as [|x l IH]; [reflexivity|].
    rewrite filter_cons, decide_True by reflexivity. rewrite IH. reflexivity. }
  destruct filter_ as [f|], exclude as [e|], count as [n|]; simpl;
    rewrite ?Hall, ?Hnone; reflexivity.
Qed.

(** X7: what [get_queryset] selects.  Every selected record is a record of
    the table that passes [filter_] and is not hit by [exclude], and the
    selected records keep the order of the table.  Without [count] every
    such record is selected; with [count = n] the first [n] of them are, so
    at most [n], and the queryset is marked as sliced exactly then. *)
Theorem get_queryset_selects (table : list Model)
    (filter_ exclude : option (Model → bool)) (count : option nat) :
  let qs := get_queryset table filter_ exclude count in
  (∀ m, m ∈ rows qs →
        m ∈ table ∧ passes filter_ m = true ∧ hit_by exclude m = false) ∧
  rows qs `sublist_of` table ∧
  (count = None →
   ∀ m, m ∈ table → passes filter_ m = true → hit_by exclude m = false → m ∈ rows qs) ∧
  (∀ n, count = Some n →
        rows qs = take n (rows (get_queryset table filter_ exclude None)) ∧
        length (rows qs) ≤ n) ∧
  is_sliced qs = bool_decide (is_Some count).
Proof.
  cbv zeta. rewrite !get_queryset_rows. cbv zeta.
  set (matching := filter (λ m, hit_by exclude m = false)
                     (filter (λ m, passes filter_ m = true) table)).
  assert (∀ m, m ∈ matching ↔
               m ∈ table ∧ passes filter_ m = true ∧ hit_by exclude m = false) as Hm.
  { intros m. unfold matching. rewrite !list_elem_of_filter. tauto. }
  assert (matching `sublist_of` table) as Hsub.
  { unfold matching. etrans; apply sublist_filter. }
  split; [|split; [|split; [|split]]].
  - intros m Hin. apply Hm. destruct count as [n|]; [|exact Hin].
    apply list_elem_of_lookup in Hin as [i Hi]. apply lookup_take_Some in Hi as [Hi _].
    apply list_elem_of_lookup. eauto.
  - destruct count as [n|]; [|exact Hsub].
    etrans; [apply sublist_take | exact Hsub].
  - intros -> m H1 H2 H3. apply Hm. auto.
  - intros n ->. split; [reflexivity|]. rewrite length_take. lia.
  - apply get_queryset_is_sliced.
Qed.

(** X8: with a page size of 0, [get_indexing_queryset] ends only on an
    empty record set, where it yields nothing and pulls nothing; on any
    other record set the loop pulls an empty slice again and again and
    never ends. *)
Theorem get_indexing_queryset_page_size_0 (self : Document) (table : list Model)
    (filter_ exclude : option (Model → bool)) (count : option nat) :
  queryset_pagination self = 0 →
  let records := rows (get_queryset table filter_ exclude count) in
  (records = [] →
   ∀ fuel, get_indexing_queryset self table filter_ exclude count (S fuel) = Some ([], [])) ∧
  (records ≠ [] →
   ∀ fuel, get_indexing_queryset self table filter_ exclude count fuel = None).
Proof.
  intros HP records. unfold get_indexing_queryset. rewrite HP.
  set (qs := if negb (is_sliced (get_queryset table filter_ exclude count))
             then qs_order_by_pk (get_queryset table filter_ exclude count)
             else get_queryset table filter_ exclude count).
  assert (length (rows qs) = length records) as Hlen.
  { unfold qs, records. destruct (is_sliced _); simpl; [reflexivity|].
    rewrite merge_sort_Permutation. reflexivity. }
  rewrite Hlen. split.
  - intros Hempty fuel. rewrite Hempty. reflexivity.
  - intros Hne fuel. apply indexing_loop_page_size_0.
    destruct records; [contradiction | simpl; lia].
Qed.

Lemma get_indexing_queryset_page_size_0_witness :
  get_indexing_queryset (Examples.article_document "idx" 0) [] None None None 1
  = Some ([], []) ∧
  ∀ fuel, get_indexing_queryset (Examples.article_document "idx" 0)
            [Examples.a1] None None None fuel = None.
Proof.
  destruct (get_indexing_queryset_page_size_0 (Examples.article_document "idx" 0)
              [] None None None eq_refl) as [Hempty _].
  destruct (get_indexing_queryset_page_size_0 (Examples.article_document "idx" 0)
              [Examples.a1] None None None eq_refl) as [_ Hloop].
  split; [apply Hempty; reflexivity | apply Hloop; discriminate].
Defined.

Lemma indexing_loop_pages (qs : QuerySet) (P : nat) :
  1 ≤ P →
  ∀ fuel i objs pulls,
    i ≤ length (rows qs) →
    indexing_loop fuel qs P (length (rows qs)) i i = Some (objs, pulls) →
    objs = concat ((λ ab, qs_slice ab.1 ab.2 qs) <$> pulls) ∧
    Forall (λ ab, ab.2 = ab.1 + P ∧
                  0 < length (qs_slice ab.1 ab.2 qs) ≤ P) pulls.
Proof.
  intros HP fuel. induction fuel as [|fuel IH]; intros i objs pulls Hi Hrun;
    [discriminate|].
  simpl in Hrun. destruct (Nat.ltb_spec i (length (rows qs))) as [Hlt|Hge].
  - rewrite qs_slice_page in Hrun.
    rewrite length_take, length_drop in Hrun.
    replace (i + P `min` (length (rows qs) - i))
      with (Nat.min (i + P) (length (rows qs))) in Hrun by lia.
    destruct (indexing_loop fuel qs P (length (rows qs)) _ _) as [[objs' pulls']|] eqn:Hrec;
      [|discriminate].
    injection Hrun as <- <-.
    apply IH in Hrec as [Hobjs Hpulls]; [|lia].
    split.
    + rewrite fmap_cons. cbn [concat fst snd]. rewrite qs_slice_page.
      f_equal. exact Hobjs.
    + constructor; [|exact Hpulls]. cbn [fst snd]. split; [reflexivity|].
      rewrite qs_slice_page, length_take, length_drop. lia.
  - injection Hrun as <- <-. split; constructor.
Qed.

(** X9: for a page size [P >= 1], whenever [get_indexing_queryset] ends,
    what it yields is the concatenation of the slices it pulled, in the
    order it pulled them; every slice is [P] wide, and every pull returns at
    least one record and at most [P] records. *)
Theorem get_indexing_queryset_bounded_pages (self : Document) (table : list Model)
    (filter_ exclude : option (Model → bool)) (count : option nat)
    (fuel : nat) (objs : list Model) (pulls : list (nat * nat)) :
  1 ≤ queryset_pagination self →
  get_indexing_queryset self table filter_ exclude count fuel = Some (objs, pulls) →
  let qs := indexing_queryset table filter_ exclude count in
  objs = concat ((λ ab, qs_slice ab.1 ab.2 qs) <$> pulls) ∧
  Forall (λ ab, ab.2 = ab.1 + queryset_pagination self ∧
                0 < length (qs_slice ab.1 ab.2 qs) ≤ queryset_pagination self) pulls.
Proof.
  intros HP Hrun qs. unfold get_indexing_queryset in Hrun.
  fold (indexing_queryset table filter_ exclude count) in Hrun. fold qs in Hrun.
  apply (indexing_loop_pages qs _ HP fuel 0 objs pulls); [lia | exact Hrun].
Qed.

Lemma get_indexing_queryset_bounded_pages_witness :
  let qs := indexing_queryset [Examples.a3; Examples.a1; Examples.a2] None None None in
  [Examples.a1; Examples.a2; Examples.a3]
  = concat ((λ ab, qs_slice ab.1 ab.2 qs) <$> [(0, 2); (2, 4)]) ∧
  Forall (λ ab, ab.2 = ab.1 + 2 ∧ 0 < length (qs_slice ab.1 ab.2 qs) ≤ 2) [(0, 2); (2, 4)].
Proof.
  apply (get_indexing_queryset_bounded_pages (Examples.article_document "idx" 2)
           [Examples.a3; Examples.a1; Examples.a2] None None None 3).
  - simpl. lia.
  - reflexivity.
Defined.

(* ===================================================================== *)
(** * More on generations and the active index *)
(* ===================================================================== *)

Lemma dashes_append (a b : string) : dashes (a +:+ b) = dashes a + dashes b.
Proof.
  induction a as [|c a IH]; [reflexivity|].
  rewrite append_cons. simpl. rewrite IH. lia.
Qed.

(** A name has at least the dashes of an expression it matches. *)
Lemma glob_match_dashes (p s : string) :
  glob_match p s = true → dashes p ≤ dashes s.
Proof.
  revert s. induction p as [|c p IH]; intros s.
  - destruct s; [reflexivity | discriminate].
  - destruct (Ascii.eqb c "*"%char) eqn:Hc.
    + apply Ascii.eqb_eq in Hc as ->.
      induction s as [|d s IHs]; simpl.
      * rewrite orb_false_r. apply IH.
      * intros [Hm|Hm]%orb_true_iff.
        -- apply IH in Hm. simpl in Hm. exact Hm.
        -- apply IHs in Hm. simpl in Hm. lia.
    + simpl. rewrite Hc. destruct s as [|d s]; [discriminate|].
      intros [Hcd Hm]%andb_true_iff. apply Ascii.eqb_eq in Hcd as <-.
      apply IH in Hm. simpl. lia.
Qed.

(** X10: the index named like the base name is never one of the
    generations [get_all_indices] lists, whatever the base name is: a
    listed name has two dashes more than the dashes of the base name. *)
Theorem get_all_indices_never_lists_base (cls : Document) (c : client) :
  ∃ names,
    get_all_indices cls c = (Ok names, c) ∧
    (_index_name cls ∉ names) ∧
    Forall (λ n, dashes (_index_name cls) + 2 ≤ dashes n) names ∧
    NoDup names.
Proof.
  exists (generations cls (store c)). split; [apply get_all_indices_eq|].
  assert (∀ n, n ∈ generations cls (store c) → dashes (_index_name cls) + 2 ≤ dashes n)
    as Hdash.
  { intros n [Hm _]%elem_of_generations. apply glob_match_dashes in Hm.
    rewrite !dashes_append in Hm. simpl in Hm. lia. }
  split; [|split].
  - intros Hin. apply Hdash in Hin. lia.
  - apply Forall_forall. exact Hdash.
  - unfold generations, sorted. rewrite merge_sort_Permutation.
    unfold store_get. apply NoDup_filter. apply NoDup_fst_map_to_list.
Qed.

(** X11: [get_active_index] sends no request and changes nothing.  When it
    returns an index, that index is a generation holding the alias, and the
    first one in name order: no generation holding the alias sorts before
    it.  It returns [None] exactly when no generation holds the alias. *)
Theorem get_active_index_first_holder (cls : Document) (c : client) :
  ∃ active,
    get_active_index cls c = (Ok active, c) ∧
    (∀ g, active = Some g →
          g ∈ generations cls (store c) ∧
          g ∈ alias_holders (_index_name cls) (store c) ∧
          ∀ g', g' ∈ generations cls (store c) →
                g' ∈ alias_holders (_index_name cls) (store c) →
                String.le g g') ∧
    (active = None ↔
     ∀ g, g ∈ generations cls (store c) → g ∉ alias_holders (_index_name cls) (store c)).
Proof.
  eexists. split; [apply get_active_index_eq|]. split.
  - intros g Hact. apply first_holder_Some in Hact as (before & after & Hgens & Hheld & Hbefore).
    split; [rewrite Hgens; apply elem_of_app; right; apply list_elem_of_here|].
    split; [apply store_exists_alias_true; exact Hheld|].
    intros g' Hg' Hheld'.
    assert (StronglySorted String.le (generations cls (store c))) as Hsorted
      by (apply StronglySorted_merge_sort; apply _).
    rewrite Hgens in Hg', Hsorted.
    apply elem_of_app in Hg' as [Hg'|Hg'].
    + exfalso. rewrite Forall_forall in Hbefore.
      apply store_exists_alias_true in Hheld'. rewrite (Hbefore g' Hg') in Hheld'.
      discriminate.
    + apply StronglySorted_app_1_r in Hsorted.
      apply elem_of_cons in Hg' as [->|Hg']; [reflexivity|].
      apply StronglySorted_cons in Hsorted as [Hall _].
      rewrite Forall_forall in Hall. exact (Hall g' Hg').
  - rewrite first_holder_None. split; intros H g Hg.
    + intros Hheld%store_exists_alias_true. rewrite (H g Hg) in Hheld. discriminate.
    + destruct (store_exists_alias g (_index_name cls) (store c)) eqn:Hheld; [|reflexivity].
      exfalso. apply (H g Hg). apply store_exists_alias_true. exact Hheld.
Qed.

(* ===================================================================== *)
(** * More on [migrate] *)
(* ===================================================================== *)

Lemma alias_holders_singleton (alias index : string) (st : index_store) :
  alias_holders alias st = {[index]} ↔ only_holder alias index st.
Proof.
  split; [|apply only_holder_alias_holders].
  intros Hh. split.
  - apply elem_of_alias_holders. rewrite Hh. apply elem_of_singleton. reflexivity.
  - intros i al Hi Hlk Hin. apply Hi. apply (elem_of_singleton (C := gset string)).
    rewrite <- Hh. apply elem_of_alias_holders. eauto.
Qed.

(** [migrate] when an active index was found: the batch is submitted as it
    is, and accepted when the target exists. *)
Lemma migrate_active_accepted (cls : Document) (suffix : option string) (c : client)
    (old : string) (al_o al_t : gset string) :
  first_holder (_index_name cls) (store c) (generations cls (store c)) = Some old →
  store c !! old = Some al_o →
  _index_name cls ∈ al_o →
  <[old := al_o ∖ {[_index_name cls]}]> (store c) !! get_index_name cls suffix = Some al_t →
  _index_name cls ∉ dom (store c) →
  migrate cls suffix c
  = (Ok tt,
     {| store := <[get_index_name cls suffix := {[_index_name cls]} ∪ al_t]>
                   (<[old := al_o ∖ {[_index_name cls]}]> (store c));
        requests := requests c ++ [ReqUpdateAliases
                                     [Remove old (_index_name cls);
                                      Add (get_index_name cls suffix) (_index_name cls)]] |}).
Proof.
  intros Hact Hold HB Htarget Hdom.
  pose proof (migrate_run cls suffix c) as Hrun. cbv zeta in Hrun.
  rewrite Hact in Hrun. unfold actions_on_aliases in Hrun. rewrite Hrun.
  unfold indices_update_aliases. apply send_Ok.
  cbn [store_update_aliases apply_alias_action]. rewrite Hold.
  rewrite bool_decide_eq_true_2 by exact HB. rewrite Htarget.
  rewrite bool_decide_eq_false_2; [reflexivity|].
  rewrite dom_insert_L. intros [Hin%elem_of_singleton|Hin]%elem_of_union; [|exact (Hdom Hin)].
  apply Hdom. rewrite Hin. apply elem_of_dom. eauto.
Qed.

Lemma only_holder_first_holder (cls : Document) (old : string) (st : index_store) :
  only_holder (_index_name cls) old st →
  old ∈ generations cls st →
  first_holder (_index_name cls) st (generations cls st) = Some old.
Proof.
  intros Honly Hgen.
  pose proof (only_holder_alias_holders _ _ _ Honly) as Hholders.
  destruct (first_holder _ _ _) as [g|] eqn:Hact.
  - apply first_holder_Some in Hact as (_ & _ & _ & Hheld & _).
    apply store_exists_alias_true in Hheld. rewrite Hholders in Hheld.
    apply elem_of_singleton in Hheld as ->. reflexivity.
  - exfalso.
    assert (store_exists_alias old (_index_name cls) st = true) as Hheld.
    { apply store_exists_alias_true. rewrite Hholders. apply elem_of_singleton.
      reflexivity. }
    rewrite (proj1 (first_holder_None _ _ _) Hact old Hgen) in Hheld. discriminate.
Qed.

(** What [migrate] leaves when one generation held the alias and the
    target exists. *)
Lemma migrate_from_only_holder (cls : Document) (suffix : option string) (c : client)
    (old : string) :
  only_holder (_index_name cls) old (store c) →
  old ∈ generations cls (store c) →
  get_index_name cls suffix ∈ dom (store c) →
  _index_name cls ∉ dom (store c) →
  ∃ st',
    migrate cls suffix c
    = (Ok tt,
       {| store := st';
          requests := requests c ++ [ReqUpdateAliases
                                       [Remove old (_index_name cls);
                                        Add (get_index_name cls suffix) (_index_name cls)]] |}) ∧
    only_holder (_index_name cls) (get_index_name cls suffix) st' ∧
    dom st' = dom (store c) ∧
    (∀ a, a ≠ _index_name cls → alias_holders a st' = alias_holders a (store c)) ∧
    (old = get_index_name cls suffix → st' = store c).
Proof.
  intros Honly Hgen Htarget HB.
  set (B := _index_name cls) in *. set (target := get_index_name cls suffix) in *.
  pose proof (only_holder_first_holder cls old (store c) Honly Hgen) as Hact. fold B in Hact.
  destruct Honly as [(al_o & Hold & HBin) Hothers].
  apply elem_of_dom in Htarget as [al_t0 Htarget].
  set (st1 := <[old := al_o ∖ {[B]}]> (store c)).
  assert (∃ al_t, st1 !! target = Some al_t ∧ (B ∉ al_t) ∧
                  ∀ a, a ≠ B → a ∈ al_t ↔ a ∈ al_t0) as (al_t & Hst1 & HBt & Hsame).
  { unfold st1. destruct (decide (old = target)) as [Heq|Hne].
    - exists (al_o ∖ {[B]}). rewrite Heq, lookup_insert_eq. split; [reflexivity|].
      rewrite Heq, Htarget in Hold. injection Hold as <-. split; [set_solver|].
      intros a Ha. set_solver.
    - exists al_t0. rewrite lookup_insert_ne by exact Hne. split; [exact Htarget|].
      split; [|reflexivity]. apply (Hothers target al_t0); [congruence | exact Htarget]. }
  exists (<[target := {[B]} ∪ al_t]> st1).
  split; [apply (migrate_active_accepted cls suffix c old al_o al_t); assumption|].
  split; [|split; [|split]].
  - split.
    + exists ({[B]} ∪ al_t). rewrite lookup_insert_eq. split; [reflexivity | set_solver].
    + intros i al Hi. rewrite lookup_insert_ne by congruence. unfold st1.
      destruct (decide (old = i)) as [<-|Hio].
      * rewrite lookup_insert_eq. intros [= <-]. set_solver.
      * rewrite lookup_insert_ne by exact Hio. apply Hothers. congruence.
  - unfold st1. rewrite !dom_insert_L.
    assert (target ∈ dom (store c)) by (apply elem_of_dom; eauto).
    assert (old ∈ dom (store c)) by (apply elem_of_dom; eauto).
    set_solver.
  - intros a Ha. apply set_eq. intros i. rewrite !elem_of_alias_holders.
    destruct (decide (target = i)) as [<-|Hti].
    + rewrite lookup_insert_eq, Htarget. split.
      * intros (al & [= <-] & Hin). exists al_t0. split; [reflexivity|].
        apply Hsame; [exact Ha | set_solver].
      * intros (al & [= <-] & Hin). eexists. split; [reflexivity|].
        apply elem_of_union. right. apply Hsame; assumption.
    + rewrite lookup_insert_ne by exact Hti. unfold st1.
      destruct (decide (old = i)) as [<-|Hoi].
      * rewrite lookup_insert_eq, Hold. split.
        -- intros (al & [= <-] & Hin). exists al_o. split; [reflexivity | set_solver].
        -- intros (al & [= <-] & Hin). eexists. split; [reflexivity | set_solver].
      * rewrite lookup_insert_ne by exact Hoi. reflexivity.
  - intros Heq. unfold st1 in *. rewrite Heq in *. rewrite lookup_insert_eq in Hst1.
    injection Hst1 as <-. rewrite insert_insert_eq.
    apply insert_id. rewrite Hold. f_equal. apply set_eq. intros a.
    destruct (decide (a = B)) as [->|Ha]; set_solver.
Qed.

(** X12: moving the alias.  When exactly one index holds the alias [B], it
    is a generation, the target index exists and nothing else is named [B],
    [migrate] succeeds with one request, the batch that removes the alias
    from the old holder and adds it to the target.  Afterwards exactly the
    target holds the alias; no index was created or deleted; every other
    alias is held by the same indices as before. *)
Theorem migrate_moves_alias (cls : Document) (suffix : option string) (c : client)
    (old : string) :
  alias_holders (_index_name cls) (store c) = {[old]} →
  old ∈ generations cls (store c) →
  get_index_name cls suffix ∈ dom (store c) →
  _index_name cls ∉ dom (store c) →
  let r := migrate cls suffix c in
  r.1 = Ok tt ∧
  requests r.2
  = requests c ++ [ReqUpdateAliases [Remove old (_index_name cls);
                                     Add (get_index_name cls suffix) (_index_name cls)]] ∧
  alias_holders (_index_name cls) (store r.2) = {[get_index_name cls suffix]} ∧
  dom (store r.2) = dom (store c) ∧
  (∀ a, a ≠ _index_name cls → alias_holders a (store r.2) = alias_holders a (store c)).
Proof.
  intros Hh%alias_holders_singleton Hgen Htarget HB r.
  destruct (migrate_from_only_holder cls suffix c old Hh Hgen Htarget HB)
    as (st' & Hrun & Honly & Hdom & Hother & _).
  unfold r. rewrite Hrun. cbn [fst snd store requests].
  split; [reflexivity|]. split; [reflexivity|].
  split; [apply only_holder_alias_holders; exact Honly|]. split; assumption.
Qed.

Lemma migrate_moves_alias_witness :
  let cls := Examples.article_document "idx" 2 in
  let c := Examples.client_of {["idx--v1" := {["idx"; "idx-read"]}; "idx--v2" := ∅]} in
  (migrate cls (Some "v2") c).1 = Ok tt ∧
  alias_holders "idx" (store (migrate cls (Some "v2") c).2) = {["idx--v2"]} ∧
  alias_holders "idx-read" (store (migrate cls (Some "v2") c).2) = {["idx--v1"]}.
Proof.
  cbv zeta.
  destruct (migrate_moves_alias (Examples.article_document "idx" 2) (Some "v2")
              (Examples.client_of {["idx--v1" := {["idx"; "idx-read"]}; "idx--v2" := ∅]})
              "idx--v1")
    as (Hok & _ & Hholders & _ & Hother).
  - by vm_compute.
  - vm_compute. apply list_elem_of_here.
  - by vm_compute.
  - by vm_compute.
  - split; [exact Hok|]. split; [exact Hholders|].
    rewrite (Hother "idx-read"); [by vm_compute | discriminate].
Defined.

Lemma get_index_name_cases (cls : Document) (suffix : option string) :
  get_index_name cls suffix = _index_name cls ∨
  ∃ s, s ≠ EmptyString ∧ get_index_name cls suffix = _index_name cls +:+ "--" +:+ s.
Proof.
  destruct suffix as [s|]; [|left; reflexivity].
  destruct (decide (s = EmptyString)) as [->|Hs]; [left; reflexivity|].
  right. exists s. split; [exact Hs | apply get_index_name_suffixed; exact Hs].
Qed.

Lemma suffixed_name_is_generation (cls : Document) (s : string) (st : index_store) :
  _index_name cls +:+ "--" +:+ s ∈ dom st →
  _index_name cls +:+ "--" +:+ s ∈ generations cls st.
Proof.
  intros Hdom. apply elem_of_generations. split; [|exact Hdom].
  change (_index_name cls +:+ VERSION_NAME_SEPARATOR +:+ "*")
    with (_index_name cls +:+ "--" +:+ "*").
  rewrite <- !append_assoc. apply glob_match_prefix.
Qed.

(** X13: [migrate] twice is [migrate] once.  Under the conditions in which
    [migrate] moves the alias, calling it again with the same suffix
    succeeds, submits the batch that removes the alias from the target and
    adds it again, and leaves the engine exactly as the first call left
    it. *)
Theorem migrate_again_changes_nothing (cls : Document) (suffix : option string)
    (c : client) (old : string) :
  alias_holders (_index_name cls) (store c) = {[old]} →
  old ∈ generations cls (store c) →
  get_index_name cls suffix ∈ dom (store c) →
  _index_name cls ∉ dom (store c) →
  let c1 := (migrate cls suffix c).2 in
  migrate cls suffix c1
  = (Ok tt,
     {| store := store c1;
        requests := requests c1
                      ++ [ReqUpdateAliases
                            [Remove (get_index_name cls suffix) (_index_name cls);
                             Add (get_index_name cls suffix) (_index_name cls)]] |}).
Proof.
  intros Hh%alias_holders_singleton Hgen Htarget HB c1.
  destruct (migrate_from_only_holder cls suffix c old Hh Hgen Htarget HB)
    as (st' & Hrun & Honly & Hdom & _ & _).
  assert (store c1 = st') as Hst by (unfold c1; rewrite Hrun; reflexivity).
  assert (get_index_name cls suffix ∈ generations cls (store c1)) as Hgen1.
  { destruct (get_index_name_cases cls suffix) as [Heq|(s & _ & Heq)].
    - exfalso. apply HB. rewrite <- Heq. exact Htarget.
    - rewrite Heq. apply suffixed_name_is_generation. rewrite Hst, Hdom, <- Heq.
      exact Htarget. }
  destruct (migrate_from_only_holder cls suffix c1 (get_index_name cls suffix))
    as (st'' & Hrun' & _ & _ & _ & Hsame).
  - rewrite Hst. exact Honly.
  - exact Hgen1.
  - rewrite Hst, Hdom. exact Htarget.
  - rewrite Hst, Hdom. exact HB.
  - rewrite Hrun', (Hsame eq_refl). reflexivity.
Qed.

Lemma migrate_again_changes_nothing_witness :
  let cls := Examples.article_document "idx" 2 in
  let c := Examples.client_of {["idx--v1" := {["idx"]}; "idx--v2" := ∅]} in
  store (migrate cls (Some "v2") (migrate cls (Some "v2") c).2).2
  = store (migrate cls (Some "v2") c).2.
Proof.
  cbv zeta.
  rewrite (migrate_again_changes_nothing (Examples.article_document "idx" 2) (Some "v2")
             (Examples.client_of {["idx--v1" := {["idx"]}; "idx--v2" := ∅]}) "idx--v1").
  - reflexivity.
  - by vm_compute.
  - vm_compute. apply list_elem_of_here.
  - by vm_compute.
  - by vm_compute.
Defined.

(** X14: a missing target with the alias in place.  When a generation
    holds the alias and the target index does not exist, [migrate] raises
    the engine's index-not-found error for the target; the batch was
    submitted and refused as a whole, so the engine is as it was and the
    alias stays where it is. *)
Theorem migrate_missing_target_keeps_alias (cls : Document) (suffix : option string)
    (c : client) (old : string) :
  get_active_index cls c = (Ok (Some old), c) →
  get_index_name cls suffix ∉ dom (store c) →
  migrate cls suffix c
  = (Raised (IndexNotFound (get_index_name cls suffix)),
     {| store := store c;
        requests := requests c
                      ++ [ReqUpdateAliases
                            [Remove old (_index_name cls);
                             Add (get_index_name cls suffix) (_index_name cls)]] |}).
Proof.
  intros Hactive Htarget.
  rewrite get_active_index_eq in Hactive. injection Hactive as Hact.
  pose proof (migrate_run cls suffix c) as Hrun. cbv zeta in Hrun.
  rewrite Hact in Hrun. unfold actions_on_aliases in Hrun. rewrite Hrun.
  apply first_holder_Some in Hact as (_ & _ & _ & Hheld & _).
  apply store_exists_alias_true, elem_of_alias_holders in Hheld as (al & Hold & HB).
  unfold indices_update_aliases. apply send_Raised.
  cbn [store_update_aliases apply_alias_action]. rewrite Hold.
  rewrite bool_decide_eq_true_2 by exact HB.
  assert (old ≠ get_index_name cls suffix) as Hne.
  { intros Heq. apply Htarget. rewrite <- Heq. apply elem_of_dom. eauto. }
  rewrite lookup_insert_ne by exact Hne.
  apply not_elem_of_dom in Htarget. rewrite Htarget. reflexivity.
Qed.

Lemma migrate_missing_target_keeps_alias_witness :
  let cls := Examples.article_document "idx" 2 in
  let c := Examples.client_of {["idx--v1" := {["idx"]}]} in
  (migrate cls (Some "v9") c).1 = Raised (IndexNotFound "idx--v9") ∧
  store (migrate cls (Some "v9") c).2 = store c.
Proof.
  cbv zeta.
  rewrite (migrate_missing_target_keeps_alias (Examples.article_document "idx" 2)
             (Some "v9") (Examples.client_of {["idx--v1" := {["idx"]}]}) "idx--v1").
  - split; reflexivity.
  - by vm_compute.
  - by vm_compute.
Defined.

(** X15: a missing target with a bare index in the way.  When no
    generation holds the alias, an index named [B] exists and the target
    does not exist (or no suffix is given, so that the target is [B]
    itself), [migrate] deletes the index [B] first and only then submits the
    batch, which the engine refuses: the call raises index-not-found for the
    target, the index [B] is gone and no alias was set. *)
Theorem migrate_missing_target_deletes_bare_index (cls : Document)
    (suffix : option string) (c : client) :
  get_active_index cls c = (Ok None, c) →
  _index_name cls ∈ dom (store c) →
  get_index_name cls suffix = _index_name cls ∨ get_index_name cls suffix ∉ dom (store c) →
  migrate cls suffix c
  = (Raised (IndexNotFound (get_index_name cls suffix)),
     {| store := delete (_index_name cls) (store c);
        requests := requests c
                      ++ [ReqDelete (_index_name cls);
                          ReqUpdateAliases
                            [Add (get_index_name cls suffix) (_index_name cls)]] |}).
Proof.
  intros Hactive Hbare Htarget.
  rewrite get_active_index_eq in Hactive. injection Hactive as Hnone.
  pose proof (migrate_run cls suffix c) as Hrun. cbv zeta in Hrun.
  rewrite Hnone in Hrun.
  assert (store_exists (_index_name cls) (store c) = true) as Hex
    by (apply store_exists_true; left; exact Hbare).
  rewrite Hex in Hrun. unfold actions_on_aliases in Hrun. rewrite Hrun.
  apply elem_of_dom in Hbare as [alB HB].
  unfold eng_bind, indices_delete.
  rewrite (send_Ok _ _ _ (delete (_index_name cls) (store c)))
    by (unfold store_delete; rewrite HB; reflexivity).
  unfold indices_update_aliases.
  rewrite (send_Raised _ _ _ (IndexNotFound (get_index_name cls suffix))).
  - cbn [store requests]. rewrite <- app_assoc. reflexivity.
  - cbn [store store_update_aliases apply_alias_action].
    assert (delete (_index_name cls) (store c) !! get_index_name cls suffix = None) as ->;
      [|reflexivity].
    destruct Htarget as [->|Htarget]; [apply lookup_delete_eq|].
    apply not_elem_of_dom. rewrite dom_delete_L. set_solver.
Qed.

Lemma migrate_missing_target_deletes_bare_index_witness :
  let cls := Examples.article_document "idx" 2 in
  let c := Examples.client_of {["idx" := ∅]} in
  (migrate cls (Some "v1") c).1 = Raised (IndexNotFound "idx--v1") ∧
  store (migrate cls (Some "v1") c).2 = ∅ ∧
  (migrate cls None c).1 = Raised (IndexNotFound "idx") ∧
  store (migrate cls None c).2 = ∅.
Proof.
  cbv zeta.
  rewrite (migrate_missing_target_deletes_bare_index (Examples.article_document "idx" 2)
             (Some "v1") (Examples.client_of {["idx" := ∅]}));
    [|by vm_compute|by vm_compute|right; by vm_compute].
  rewrite (migrate_missing_target_deletes_bare_index (Examples.article_document "idx" 2)
             None (Examples.client_of {["idx" := ∅]}));
    [|by vm_compute|by vm_compute|left; reflexivity].
  repeat split; by vm_compute.
Defined.

(* ===================================================================== *)
(** * More on [init] *)
(* ===================================================================== *)

(** What [Index.save] comes to, by what the name is to the engine. *)
Lemma dsl_init_cases (name : string) (c : client) :
  (store_exists name (store c) = false ∧
   dsl_init name c
   = (Ok tt, {| store := <[name := ∅]> (store c);
                requests := requests c ++ [ReqCreate name] |})) ∨
  (name ∈ dom (store c) ∧
   dsl_init name c
   = (Ok tt, {| store := store c; requests := requests c ++ [ReqPutMapping name] |})) ∨
  ((name ∉ dom (store c)) ∧ name ∈ alias_names (store c) ∧
   dsl_init name c = (Raised (KeyError name), c)).
Proof.
  destruct (store_exists name (store c)) eqn:Hex.
  - destruct (decide (name ∈ dom (store c))) as [Hdom|Hdom].
    + right. left. split; [exact Hdom | apply dsl_init_present; exact Hdom].
    + right. right. apply store_exists_true in Hex as [Hd|Hal]; [contradiction|].
      split; [exact Hdom|]. split; [exact Hal | apply dsl_init_alias; assumption].
  - left. split; [reflexivity | apply dsl_init_absent; exact Hex].
Qed.




(** X17: what [init] never does.  Whatever the engine holds, every request
    [init] sends concerns the generation it names: its creation, the push of
    the mappings to it when it is there already, or a batch with the single
    action that adds the alias to it.  It never deletes an index and never
    removes an alias: afterwards, whether it returned or raised, every index
    is still there and still has every alias it had. *)
Theorem init_never_deletes (cls : Document) (suffix : option string) (now : string)
    (c : client) :
  let B := _index_name cls in
  let target := get_index_name cls (if truthy suffix then suffix else Some now) in
  let r := init cls suffix now c in
  (∃ new,
     requests r.2 = requests c ++ new ∧
     Forall (λ q, q = ReqCreate target ∨ q = ReqPutMapping target ∨
                  q = ReqUpdateAliases [Add target B]) new) ∧
  (∀ i al, store c !! i = Some al → ∃ al', store r.2 !! i = Some al' ∧ al ⊆ al').
Proof.
  cbv zeta.
  remember (_index_name cls) as B eqn:HeqB.
  remember (get_index_name cls (if truthy suffix then suffix else Some now))
    as target eqn:Heqtarget.
  (* Index.save *)
  assert ((∃ c1 first,
             dsl_init target c = (Ok tt, c1) ∧
             requests c1 = requests c ++ [first] ∧
             (first = ReqCreate target ∨ first = ReqPutMapping target) ∧
             (∀ i al, store c !! i = Some al → store c1 !! i = Some al)) ∨
          dsl_init target c = (Raised (KeyError target), c))
    as [(c1 & first & Hinit & Hreq1 & Hfirst & Hkeep1)|Hinit].
  { destruct (dsl_init_cases target c) as [[Hex ->]|[[Hdom ->]|(_ & _ & ->)]].
    - left. eexists _, _. split; [reflexivity|]. cbn [store requests].
      split; [reflexivity|]. split; [left; reflexivity|].
      intros i al Hlk. rewrite lookup_insert_ne; [exact Hlk|].
      intros <-. apply store_exists_false in Hex as [Hdom _].
      apply Hdom. apply elem_of_dom. eauto.
    - left. eexists _, _. split; [reflexivity|]. cbn [store requests].
      split; [reflexivity|]. split; [right; reflexivity|]. auto.
    - right. reflexivity. }
  2: { assert (init cls suffix now c = (Raised (KeyError target), c)) as ->.
       { unfold init. cbv zeta. rewrite <- Heqtarget.
         unfold eng_bind at 1. rewrite Hinit. reflexivity. }
       cbn [fst snd]. split.
       - exists []. rewrite app_nil_r. split; [reflexivity | constructor].
       - intros i al Hlk. exists al. split; [exact Hlk | reflexivity]. }
  (* the rest of init, by what answers to the base name *)
  assert (init cls suffix now c
          = if store_exists B (store c1) then (Ok tt, c1)
            else indices_update_aliases [Add target B] c1) as Hrun_init.
  { unfold init. cbv zeta. rewrite <- Heqtarget, <- HeqB.
    unfold eng_bind at 1. rewrite Hinit.
    unfold eng_bind at 1, indices_exists, query. cbn [store].
    destruct (store_exists B (store c1)) eqn:HB; cbn [negb]; [reflexivity|].
    pose proof (migrate_run cls (if truthy suffix then suffix else Some now) c1) as Hrun.
    cbv zeta in Hrun. rewrite <- HeqB in Hrun.
    assert (first_holder B (store c1) (generations cls (store c1)) = None) as Hnone.
    { apply first_holder_None. intros g _.
      destruct (store_exists_alias g B (store c1)) eqn:Hheld; [|reflexivity].
      apply store_exists_alias_true, elem_of_alias_holders in Hheld as (al & Hlk & Hin).
      apply store_exists_false in HB as [_ HB]. exfalso. apply HB.
      apply elem_of_alias_names. eauto. }
    rewrite Hnone, HB in Hrun. unfold actions_on_aliases in Hrun.
    rewrite <- Heqtarget, <- HeqB in Hrun. exact Hrun. }
  rewrite Hrun_init. clear Hrun_init.
  destruct (store_exists B (store c1)) eqn:HB.
  - cbn [fst snd]. split.
    + exists [first]. split; [exact Hreq1|].
      destruct Hfirst as [->| ->]; (constructor; [auto | constructor]).
    + intros i al Hlk. exists al. split; [apply Hkeep1; exact Hlk | reflexivity].
  - unfold indices_update_aliases. split.
    + exists ([first] ++ [ReqUpdateAliases [Add target B]]).
      rewrite send_requests, Hreq1, <- app_assoc. split; [reflexivity|].
      destruct Hfirst as [->| ->];
        (constructor; [auto | constructor; [auto | constructor]]).
    + intros i al Hlk. apply Hkeep1 in Hlk. unfold send.
      cbn [store_update_aliases apply_alias_action].
      destruct (store c1 !! target) as [al_t|] eqn:Ht; cbn [snd store].
      * destruct (bool_decide (B ∈ dom (store c1))); cbn [snd store].
        -- exists al. split; [exact Hlk | reflexivity].
        -- destruct (decide (target = i)) as [<-|Hne].
           ++ rewrite lookup_insert_eq. rewrite Ht in Hlk. injection Hlk as <-.
              eexists. split; [reflexivity | set_solver].
           ++ rewrite lookup_insert_ne by exact Hne.
              exists al. split; [exact Hlk | reflexivity].
      * exists al. split; [exact Hlk | reflexivity].
Qed.

(* ===================================================================== *)
(** * More on [update] and the bulk strategies *)
(* ===================================================================== *)

Lemma get_index_name_truthy (cls : Document) (suffix : option string) :
  truthy suffix = true → truthy (Some (get_index_name cls suffix)) = true.
Proof.
  intros Ht. destruct suffix as [s|]; [|discriminate].
  unfold get_index_name. rewrite Ht. unfold truthy.
  apply negb_true_iff, String.eqb_neq. intros Hnil.
  apply (f_equal dashes) in Hnil. rewrite !dashes_append in Hnil. simpl in Hnil. lia.
Qed.

Lemma _get_actions_elem (self : Document) (object_list : list Model) (action : string)
    (index_name : option string) (d : descriptor) :
  d ∈ _get_actions self object_list action index_name →
  ∃ obj, obj ∈ object_list ∧ d = _prepare_action self obj action index_name.
Proof.
  induction object_list as [|obj rest IH]; simpl; [intros H; inversion H|].
  destruct (String.eqb action "delete" || should_index_object self obj).
  - intros [->|Hin]%elem_of_cons.
    + exists obj. split; [apply list_elem_of_here | reflexivity].
    + destruct (IH Hin) as (o & Ho & ->). exists o.
      split; [apply list_elem_of_further; exact Ho | reflexivity].
  - intros Hin. destruct (IH Hin) as (o & Ho & ->). exists o.
    split; [apply list_elem_of_further; exact Ho | reflexivity].
Qed.

Section UpdateFacts.

Variable item_ok : descriptor → bool.
Variable auto_refresh_enabled : bool.

(** One run of [update], under either strategy.  The actions built are
    handed to the helper as a new generator, with [raise_on_error] left to
    the helper.  [sent] is what reached the engine.  When [update] returns,
    that is every action built and the engine has accepted each of them.
    When it raises, an action that was sent has been refused, and no
    notification has gone out. *)
Lemma update_run (self : Document) (t : thing) (action : string)
    (index_suffix : option string) (refresh : option bool) (parallel : bool)
    (chunk_size : option nat) (w : world) :
  let built :=
    _get_actions self (match t with AModel m => [m] | AnIterable objs => objs end) action
      (if truthy index_suffix then Some (get_index_name self index_suffix) else None) in
  let kwargs := {| refresh := Some (resolved_refresh auto_refresh_enabled self refresh);
                   chunk_size := chunk_size; raise_on_error := None |} in
  let r := update item_ok auto_refresh_enabled self t action index_suffix
             refresh parallel chunk_size w in
  ∃ sent rest,
    built = sent ++ rest ∧
    writes r.2 = writes w ++ sent ∧
    helper_calls r.2
    = helper_calls w
        ++ [if parallel
            then CallParallelBulk (setdefault_chunk_size (queryset_pagination self) kwargs)
            else CallBulk kwargs] ∧
    match r.1 with
    | Returned resp =>
        rest = [] ∧ forallb item_ok built = true ∧
        if parallel then resp = (1, []) ∧ signals r.2 = signals w
        else resp = (length built, []) ∧
             signals r.2
             = signals w ++ [{| sender := doc_name self; instance := self;
                                actions := IterGen (length (generators w));
                                sig_response := resp |}]
    | BulkIndexError errs =>
        errs ≠ [] ∧ forallb item_ok sent = false ∧ signals r.2 = signals w
    end.
Proof.
  cbv zeta.
  set (built := _get_actions self _ action _).
  set (kwargs := {| refresh := Some _; chunk_size := chunk_size; raise_on_error := None |}).
  unfold update. fold built.
  change {| refresh := Some match refresh with
                            | Some r => r
                            | None => default auto_refresh_enabled (auto_refresh self)
                            end;
            chunk_size := chunk_size; raise_on_error := None |} with kwargs.
  destruct (new_generator_pending built w) as (Hpend & Hw & Hs & Hc).
  assert ((new_generator built w).1 = IterGen (length (generators w))) as Hgen
    by reflexivity.
  destruct (new_generator built w) as [actions w0]. cbn [fst snd] in *.
  unfold _bulk. destruct parallel.
  - destruct (parallel_bulk_spec item_ok self actions kwargs w0)
      as (sent & rest & Hp & Hwr & Hsig & Hcalls & _ & Hr).
    exists sent, rest. rewrite Hpend in Hp. rewrite Hwr, Hcalls, Hsig, Hw, Hc, Hs.
    split; [exact Hp|]. split; [reflexivity|]. split; [reflexivity|].
    destruct (parallel_bulk item_ok self actions kwargs w0).1 as [resp|errs].
    + destruct Hr as (-> & -> & Hall). rewrite app_nil_r in Hp. subst sent.
      split; [reflexivity|]. split; [apply Hall; reflexivity|]. split; reflexivity.
    + destruct Hr as (_ & Herrs & Hrefused). repeat split; assumption.
  - unfold bulk.
    destruct (helpers_bulk_spec item_ok kwargs actions w0)
      as (sent & rest & Hp & Hwr & Hsig & Hcalls & _ & Hr).
    exists sent, rest. rewrite Hpend in Hp.
    destruct (helpers_bulk item_ok kwargs actions w0) as [[resp|errs] w1];
      cbn [fst snd] in *.
    + destruct Hr as (-> & -> & Hall). rewrite app_nil_r in Hp. subst sent.
      specialize (Hall eq_refl).
      cbn [writes helper_calls signals post_index_send].
      rewrite Hwr, Hcalls, Hsig, Hw, Hc, Hs, Hgen.
      rewrite (accepted_all item_ok built Hall), (refused_nil item_ok built Hall).
      rewrite app_nil_r. repeat split. exact Hall.
    + destruct Hr as (_ & Herrs & Hrefused).
      rewrite Hwr, Hcalls, Hsig, Hw, Hc, Hs. repeat split; assumption.
Qed.

(** X18: [update] under the sequential strategy.  The bulk helper is
    called once, with [refresh] resolved and [raise_on_error] left to the
    helper.  When the engine accepts every action built from the records,
    they reach the engine, all of them and in order, the response is the
    number of actions with no error, and one [post_index] notification is
    sent, carrying that response.  When the engine refuses one of them, the
    helper's [BulkIndexError] leaves [update] and no notification is
    sent. *)
Theorem update_sequential (self : Document) (t : thing) (action : string)
    (index_suffix : option string) (refresh : option bool) (chunk_size : option nat)
    (w : world) :
  let object_list := match t with AModel m => [m] | AnIterable objs => objs end in
  let index_name :=
    if truthy index_suffix then Some (get_index_name self index_suffix) else None in
  let built := _get_actions self object_list action index_name in
  let r := update item_ok auto_refresh_enabled self t action index_suffix
             refresh false chunk_size w in
  (Forall (λ a, item_ok a = true) built →
   r.1 = Returned (length built, []) ∧
   writes r.2 = writes w ++ built ∧
   ∃ s, signals r.2 = signals w ++ [s] ∧ sig_response s = (length built, []) ∧
        sender s = doc_name self) ∧
  (¬ Forall (λ a, item_ok a = true) built →
   ∃ errors, r.1 = BulkIndexError errors ∧ errors ≠ [] ∧ signals r.2 = signals w) ∧
  helper_calls r.2
  = helper_calls w
      ++ [CallBulk {| refresh := Some (resolved_refresh auto_refresh_enabled self refresh);
                      chunk_size := chunk_size; raise_on_error := None |}].
Proof.
  cbv zeta.
  destruct (update_run self t action index_suffix refresh false chunk_size w)
    as (sent & rest & Hb & Hw & Hc & Hr).
  set (built := _get_actions self _ action _) in *.
  split; [|split; [|exact Hc]].
  - intros Hall.
    destruct (update item_ok auto_refresh_enabled self t action index_suffix
                refresh false chunk_size w).1 as [resp|errs].
    + destruct Hr as (-> & _ & -> & Hsig). rewrite app_nil_r in Hb. subst sent.
      split; [reflexivity|]. split; [exact Hw|].
      eexists. split; [exact Hsig|]. split; reflexivity.
    + exfalso. destruct Hr as (_ & Hrefused & _).
      rewrite Hb in Hall. apply Forall_app in Hall as [Hall _].
      apply forallb_item_ok in Hall. congruence.
  - intros Hsome.
    destruct (update item_ok auto_refresh_enabled self t action index_suffix
                refresh false chunk_size w).1 as [resp|errs].
    + exfalso. destruct Hr as (_ & Hall & _). apply Hsome, forallb_item_ok, Hall.
    + exists errs. destruct Hr as (Herrs & _ & Hsig). repeat split; assumption.
Qed.

(** X19: [update] under the parallel strategy.  The parallel helper is
    called with the [chunk_size] given, or with the page size of the
    document when none is given, and no notification is sent.  When the
    engine accepts every action built from the records, each of them reaches
    the engine exactly once (the order in which the helper's threads deliver
    them is not claimed) and the value returned is [(1, [])].  When the
    engine refuses one of them, the helper's [BulkIndexError] leaves
    [update]. *)
Theorem update_parallel (self : Document) (t : thing) (action : string)
    (index_suffix : option string) (refresh : option bool) (chunk_size : option nat)
    (w : world) :
  let object_list := match t with AModel m => [m] | AnIterable objs => objs end in
  let index_name :=
    if truthy index_suffix then Some (get_index_name self index_suffix) else None in
  let built := _get_actions self object_list action index_name in
  let r := update item_ok auto_refresh_enabled self t action index_suffix
             refresh true chunk_size w in
  (Forall (λ a, item_ok a = true) built →
   r.1 = Returned (1, []) ∧
   ∃ sent, writes r.2 = writes w ++ sent ∧ sent ≡ₚ built) ∧
  (¬ Forall (λ a, item_ok a = true) built →
   ∃ errors, r.1 = BulkIndexError errors ∧ errors ≠ []) ∧
  signals r.2 = signals w ∧
  helper_calls r.2
  = helper_calls w
      ++ [CallParallelBulk
            {| refresh := Some (resolved_refresh auto_refresh_enabled self refresh);
               chunk_size := Some (default (queryset_pagination self) chunk_size);
               raise_on_error := None |}].
Proof.
  cbv zeta.
  destruct (update_run self t action index_suffix refresh true chunk_size w)
    as (sent & rest & Hb & Hw & Hc & Hr).
  set (built := _get_actions self _ action _) in *.
  split; [|split; [|split]].
  - intros Hall.
    destruct (update item_ok auto_refresh_enabled self t action index_suffix
                refresh true chunk_size w).1 as [resp|errs].
    + destruct Hr as (-> & _ & -> & _). rewrite app_nil_r in Hb. subst sent.
      split; [reflexivity|]. eexists. split; [exact Hw | reflexivity].
    + exfalso. destruct Hr as (_ & Hrefused & _).
      rewrite Hb in Hall. apply Forall_app in Hall as [Hall _].
      apply forallb_item_ok in Hall. congruence.
  - intros Hsome.
    destruct (update item_ok auto_refresh_enabled self t action index_suffix
                refresh true chunk_size w).1 as [resp|errs].
    + exfalso. destruct Hr as (_ & Hall & _). apply Hsome, forallb_item_ok, Hall.
    + exists errs. destruct Hr as (Herrs & _). split; [reflexivity | exact Herrs].
  - destruct (update item_ok auto_refresh_enabled self t action index_suffix
                refresh true chunk_size w).1 as [resp|errs].
    + destruct Hr as (_ & _ & _ & Hsig). exact Hsig.
    + destruct Hr as (_ & _ & Hsig). exact Hsig.
  - rewrite Hc. unfold setdefault_chunk_size. simpl. destruct chunk_size; reflexivity.
Qed.

(** X20: where [update] writes.  Under either strategy every action
    [update] sends targets one index: the generation named from the
    document's index and [index_suffix] when a non-empty suffix is given,
    and the document's index name itself, that is the alias, when not. *)
Theorem update_targets_one_index (self : Document) (t : thing) (action : string)
    (index_suffix : option string) (refresh : option bool) (parallel : bool)
    (chunk_size : option nat) (w : world) :
  let r := update item_ok auto_refresh_enabled self t action index_suffix
             refresh parallel chunk_size w in
  ∃ sent,
    writes r.2 = writes w ++ sent ∧
    Forall (λ d : descriptor,
              d !! "_index" = Some (EStr (get_index_name self index_suffix))) sent.
Proof.
  cbv zeta.
  destruct (update_run self t action index_suffix refresh parallel chunk_size w)
    as (sent & rest & Hb & Hw & _).
  set (index_name :=
         if truthy index_suffix then Some (get_index_name self index_suffix) else None)
    in *.
  exists sent. split; [exact Hw|].
  apply Forall_forall. intros d Hd.
  assert (d ∈ _get_actions self
                (match t with AModel m => [m] | AnIterable objs => objs end)
                action index_name) as Hin
    by (rewrite Hb; apply elem_of_app; left; exact Hd).
  apply _get_actions_elem in Hin as (obj & _ & ->).
  unfold _prepare_action.
  rewrite lookup_insert_ne by (destruct (negb (String.eqb action "update")); done).
  rewrite lookup_insert_ne by done. rewrite lookup_insert_eq. do 2 f_equal.
  unfold index_name. destruct (truthy index_suffix) eqn:Ht.
  - rewrite (get_index_name_truthy self index_suffix Ht). reflexivity.
  - destruct index_suffix as [s|]; [|reflexivity].
    unfold get_index_name. rewrite Ht. reflexivity.
Qed.

End UpdateFacts.

Lemma update_sequential_witness :
  let self := Examples.article_document "idx" 2 in
  let t := AnIterable [Examples.a1; Examples.a2; Examples.a3] in
  let accepted := update Examples.accepts_all true self t "index" None None false None
                    Examples.empty_world in
  let refused := update (Examples.refuses_id 3) true self t "index" None None false None
                   Examples.empty_world in
  accepted.1 = Returned (2, []) ∧ length (signals accepted.2) = 1 ∧
  (∃ errors, refused.1 = BulkIndexError errors) ∧ signals refused.2 = [].
Proof.
  cbv zeta.
  destruct (update_sequential Examples.accepts_all true
              (Examples.article_document "idx" 2)
              (AnIterable [Examples.a1; Examples.a2; Examples.a3])
              "index" None None None Examples.empty_world) as (Hall & _ & _).
  destruct (update_sequential (Examples.refuses_id 3) true
              (Examples.article_document "idx" 2)
              (AnIterable [Examples.a1; Examples.a2; Examples.a3])
              "index" None None None Examples.empty_world) as (_ & Hsome & _).
  destruct Hall as (Hret & _ & s & Hsig & _).
  { apply Forall_forall. intros a _. reflexivity. }
  destruct Hsome as (errors & Hraised & _ & Hnone).
  { intros Hall. apply Forall_forall with (x := _prepare_action
      (Examples.article_document "idx" 2) Examples.a3 "index" None) in Hall.
    - vm_compute in Hall. discriminate Hall.
    - simpl. apply list_elem_of_further, list_elem_of_here. }
  split; [exact Hret|]. split; [rewrite Hsig; reflexivity|].
  split; [exists errors; exact Hraised | exact Hnone].
Defined.

Lemma update_parallel_witness :
  let self := Examples.article_document "idx" 2 in
  let t := AnIterable [Examples.a1; Examples.a2; Examples.a3] in
  (update Examples.accepts_all true self t "index" None None true None
     Examples.empty_world).1 = Returned (1, []) ∧
  ∃ errors, (update (Examples.refuses_id 3) true self t "index" None None true None
               Examples.empty_world).1 = BulkIndexError errors.
Proof.
  cbv zeta.
  destruct (update_parallel Examples.accepts_all true
              (Examples.article_document "idx" 2)
              (AnIterable [Examples.a1; Examples.a2; Examples.a3])
              "index" None None None Examples.empty_world) as (Hall & _ & _).
  destruct (update_parallel (Examples.refuses_id 3) true
              (Examples.article_document "idx" 2)
              (AnIterable [Examples.a1; Examples.a2; Examples.a3])
              "index" None None None Examples.empty_world) as (_ & Hsome & _).
  destruct Hall as (Hret & _).
  { apply Forall_forall. intros a _. reflexivity. }
  destruct Hsome as (errors & Hraised & _).
  { intros Hall. apply Forall_forall with (x := _prepare_action
      (Examples.article_document "idx" 2) Examples.a3 "index" None) in Hall.
    - vm_compute in Hall. discriminate Hall.
    - simpl. apply list_elem_of_further, list_elem_of_here. }
  split; [exact Hret | exists errors; exact Hraised].
Defined.

Section ResubmissionFacts.

Variable item_ok : descriptor → bool.
Variable auto_refresh_enabled : bool.

(** A [bulk] that the engine lets through. *)
Lemma bulk_run (self : Document) (actions : iterable) (kwargs : bulk_kwargs) (w : world) :
  let items := pending (iter actions) w in
  let r := bulk item_ok self actions kwargs w in
  raise_on_error kwargs = Some false ∨ Forall (λ a, item_ok a = true) items →
  r.1 = Returned (length (accepted item_ok items), refused item_ok items) ∧
  writes r.2 = writes w ++ items ∧
  signals r.2 = signals w ++ [{| sender := doc_name self; instance := self;
                                 actions := actions;
                                 sig_response := (length (accepted item_ok items),
                                                  refused item_ok items) |}] ∧
  pending (iter actions) r.2
  = match actions with IterList l => l | IterGen _ => [] end.
Proof.
  cbv zeta. intros Hcase. unfold bulk.
  destruct (helpers_bulk_returns item_ok kwargs actions w Hcase)
    as (Hret & Hwr & Hsig & _ & Hdrained).
  destruct (helpers_bulk item_ok kwargs actions w) as [resp w1]. cbn [fst snd] in *.
  subst resp. cbn [fst snd writes signals post_index_send]. rewrite Hsig, Hwr.
  split; [reflexivity|]. split; [reflexivity|]. split; [reflexivity|].
  destruct actions; exact Hdrained.
Qed.

(** X21: submitting the same [actions] object twice, to an engine that
    accepts every action.  A generator is used up by the first [bulk]: the
    second [bulk] writes nothing and returns [(0, [])], and still sends its
    notification.  A list is written again in full, with the same
    response. *)
Theorem bulk_again_same_actions (self : Document) (actions : iterable)
    (kwargs kwargs' : bulk_kwargs) (w : world) :
  Forall (λ a, item_ok a = true) (pending (iter actions) w) →
  let r1 := bulk item_ok self actions kwargs w in
  let r2 := bulk item_ok self actions kwargs' r1.2 in
  length (signals r2.2) = length (signals w) + 2 ∧
  match actions with
  | IterGen _ => r2.1 = Returned (0, []) ∧ writes r2.2 = writes r1.2
  | IterList items => r2.1 = r1.1 ∧ writes r2.2 = writes w ++ items ++ items
  end.
Proof.
  intros Hall. cbv zeta.
  destruct (bulk_run self actions kwargs w (or_intror Hall)) as (Hr1 & Hw1 & Hs1 & Hp1).
  assert (Forall (λ a, item_ok a = true)
            (pending (iter actions) (bulk item_ok self actions kwargs w).2)) as Hall2.
  { rewrite Hp1. destruct actions; [exact Hall | constructor]. }
  destruct (bulk_run self actions kwargs' (bulk item_ok self actions kwargs w).2
              (or_intror Hall2)) as (Hr2 & Hw2 & Hs2 & _).
  split.
  - rewrite Hs2, Hs1, !length_app. simpl. lia.
  - destruct actions as [items|g].
    + simpl in *. rewrite Hr2, Hr1, Hw2, Hw1, <- app_assoc. split; reflexivity.
    + rewrite Hp1 in Hr2, Hw2. rewrite Hr2, Hw2, app_nil_r.
      split; reflexivity.
Qed.

Lemma _get_actions_not_delete (self : Document) (object_list : list Model)
    (action : string) (index_name : option string) :
  action ≠ "delete" →
  _get_actions self object_list action index_name
  = (λ obj, _prepare_action self obj action index_name)
      <$> filter (λ obj, should_index_object self obj = true) object_list.
Proof.
  intros Hd%String.eqb_neq.
  induction object_list as [|obj rest IH]; [reflexivity|].
  simpl. rewrite Hd, IH. simpl. rewrite filter_cons.
  destruct (should_index_object self obj).
  - rewrite decide_True by done. reflexivity.
  - rewrite decide_False by done. reflexivity.
Qed.

(** X22: indexing a whole queryset into an engine that accepts every
    action.  For a page size [P >= 1], feeding what [get_indexing_queryset]
    yields to [update] with an action other than delete writes, under either
    strategy, one action for every selected record that
    [should_index_object] accepts and none for the others, each once; under
    the sequential strategy they arrive in the order of the indexing
    queryset (the order of the primary keys when no [count] is given). *)
Theorem update_from_indexing_queryset (self : Document) (table : list Model)
    (filter_ exclude : option (Model → bool)) (count : option nat) (fuel : nat)
    (action : string) (refresh : option bool) (parallel : bool)
    (chunk_size : option nat) (w : world) :
  let expected :=
    (λ obj, _prepare_action self obj action None)
      <$> filter (λ obj, should_index_object self obj = true)
            (rows (indexing_queryset table filter_ exclude count)) in
  1 ≤ queryset_pagination self →
  action ≠ "delete" →
  ceil_div (length (rows (indexing_queryset table filter_ exclude count)))
    (queryset_pagination self) < fuel →
  Forall (λ a, item_ok a = true) expected →
  ∃ objs pulls sent,
    get_indexing_queryset self table filter_ exclude count fuel = Some (objs, pulls) ∧
    writes (update item_ok auto_refresh_enabled self (AnIterable objs) action None
              refresh parallel chunk_size w).2
    = writes w ++ sent ∧
    sent ≡ₚ expected ∧
    (parallel = false → sent = expected) ∧
    (count = None → Sorted pk_le (rows (indexing_queryset table filter_ exclude count))).
Proof.
  intros expected HP Haction Hfuel Hall.
  set (qs := indexing_queryset table filter_ exclude count) in *.
  pose proof (indexing_loop_from_page qs (queryset_pagination self) HP fuel 0) as Hloop.
  cbv zeta in Hloop. simpl in Hloop. rewrite Nat.sub_0_r in Hloop.
  specialize (Hloop ltac:(lia) Hfuel).
  destruct (update_run item_ok auto_refresh_enabled self (AnIterable (rows qs)) action
              None refresh parallel chunk_size w) as (sent & rest & Hb & Hw & _ & Hr).
  simpl in Hb. rewrite (_get_actions_not_delete _ _ _ _ Haction) in Hb.
  fold expected in Hb.
  assert (sent = expected) as Hsent.
  { destruct (update item_ok auto_refresh_enabled self (AnIterable (rows qs)) action
                None refresh parallel chunk_size w).1 as [resp|errs].
    - destruct Hr as (-> & _). rewrite app_nil_r in Hb. congruence.
    - exfalso. destruct Hr as (_ & Hrefused & _).
      rewrite Hb in Hall. apply Forall_app in Hall as [Hall _].
      apply forallb_item_ok in Hall. congruence. }
  exists (rows qs). eexists. exists sent. split; [exact Hloop|].
  split; [exact Hw|]. split; [rewrite Hsent; reflexivity|]. split; [intros _; exact Hsent|].
  intros ->. unfold qs, indexing_queryset. rewrite get_queryset_is_sliced. simpl.
  apply Sorted_merge_sort, _.
Qed.

End ResubmissionFacts.

Lemma bulk_again_same_actions_witness :
  let self := Examples.article_document "idx" 2 in
  let built := _get_actions self [Examples.a1; Examples.a3] "index" None in
  let w := (new_generator built Examples.empty_world).2 in
  let r1 := bulk Examples.accepts_all self (IterGen 0) Examples.no_kwargs w in
  let r2 := bulk Examples.accepts_all self (IterGen 0) Examples.no_kwargs r1.2 in
  r1.1 = Returned (2, []) ∧ r2.1 = Returned (0, []) ∧ writes r2.2 = writes r1.2 ∧
  length (signals r2.2) = 2.
Proof.
  cbv zeta.
  destruct (bulk_again_same_actions Examples.accepts_all
              (Examples.article_document "idx" 2) (IterGen 0)
              Examples.no_kwargs Examples.no_kwargs
              (new_generator
                 (_get_actions (Examples.article_document "idx" 2)
                    [Examples.a1; Examples.a3] "index" None)
                 Examples.empty_world).2) as (Hsig & Hret & Hwr).
  - apply Forall_forall. intros a _. reflexivity.
  - split; [by vm_compute|]. split; [exact Hret|]. split; [exact Hwr | exact Hsig].
Defined.

Lemma update_from_indexing_queryset_witness :
  ∃ objs pulls,
    get_indexing_queryset (Examples.article_document "idx" 2)
      [Examples.a3; Examples.a1; Examples.a2] None None None 3 = Some (objs, pulls) ∧
    writes (update Examples.accepts_all true (Examples.article_document "idx" 2)
              (AnIterable objs) "index" None None false None Examples.empty_world).2
    = [_prepare_action (Examples.article_document "idx" 2) Examples.a1 "index" None;
       _prepare_action (Examples.article_document "idx" 2) Examples.a3 "index" None].
Proof.
  destruct (update_from_indexing_queryset Examples.accepts_all true
              (Examples.article_document "idx" 2)
              [Examples.a3; Examples.a1; Examples.a2] None None None 3
              "index" None false None Examples.empty_world)
    as (objs & pulls & sent & Hrun & Hwrites & _ & Hsent & _).
  - simpl. lia.
  - discriminate.
  - vm_compute. lia.
  - apply Forall_forall. intros a _. reflexivity.
  - exists objs, pulls. split; [exact Hrun|]. rewrite Hwrites, (Hsent eq_refl).
    reflexivity.
Defined.

(* ===================================================================== *)
(** * More on index names *)
(* ===================================================================== *)

(** X23: within one document class the suffix can be read back from the
    name: two suffixes give the same index name only when they are the same
    suffix or both stand for no suffix ([None] or the empty string), and the
    name of a generation is never the base name. *)
Theorem get_index_name_injective (cls : Document) (s1 s2 : option string) :
  get_index_name cls s1 = get_index_name cls s2 →
  (truthy s1 = false ∧ truthy s2 = false ∧ get_index_name cls s1 = _index_name cls) ∨
  (truthy s1 = true ∧ s1 = s2 ∧ get_index_name cls s1 ≠ _index_name cls).
Proof.
  assert (∀ s : option string, truthy s = false → get_index_name cls s = _index_name cls)
    as Hbare.
  { intros [s|] Hs; [|reflexivity]. unfold get_index_name. rewrite Hs. reflexivity. }
  assert (∀ s : option string, truthy s = true →
            ∃ x, s = Some x ∧ get_index_name cls s = _index_name cls +:+ "--" +:+ x)
    as Hsuffixed.
  { intros [s|] Hs; [|discriminate]. exists s. split; [reflexivity|].
    unfold get_index_name. rewrite Hs. reflexivity. }
  intros Heq. destruct (truthy s1) eqn:H1, (truthy s2) eqn:H2.
  - right. destruct (Hsuffixed s1 H1) as (x1 & -> & Hn1).
    destruct (Hsuffixed s2 H2) as (x2 & -> & Hn2).
    rewrite Hn1, Hn2 in Heq. do 2 apply String.app_inj in Heq. subst x2.
    split; [reflexivity|]. split; [reflexivity|].
    rewrite Hn1. intros Hb. symmetry in Hb. exact (base_name_not_suffixed _ _ Hb).
  - exfalso. destruct (Hsuffixed s1 H1) as (x1 & _ & Hn1).
    rewrite Hn1, (Hbare s2 H2) in Heq. symmetry in Heq.
    exact (base_name_not_suffixed _ _ Heq).
  - exfalso. destruct (Hsuffixed s2 H2) as (x2 & _ & Hn2).
    rewrite Hn2, (Hbare s1 H1) in Heq. exact (base_name_not_suffixed _ _ Heq).
  - left. split; [reflexivity|]. split; [reflexivity|]. exact (Hbare s1 H1).
Qed.

Lemma get_index_name_injective_witness :
  get_index_name (Examples.article_document "idx" 2) (Some "v1")
    ≠ _index_name (Examples.article_document "idx" 2) ∧
  (truthy None = false ∧
   get_index_name (Examples.article_document "idx" 2) None
   = get_index_name (Examples.article_document "idx" 2) (Some EmptyString)).
Proof.
  destruct (get_index_name_injective (Examples.article_document "idx" 2)
              (Some "v1") (Some "v1") eq_refl) as [(Hf & _)|(_ & _ & Hne)];
    [discriminate Hf|].
  destruct (get_index_name_injective (Examples.article_document "idx" 2)
              None (Some EmptyString) eq_refl) as [(Hf & _ & _)|(Ht & _)];
    [|discriminate Ht].
  split; [exact Hne|]. split; [exact Hf | reflexivity].
Defined.

(** An expression that ends in [*] still matches when its literal part is
    cut short. *)
Lemma glob_match_shorter_prefix (p q s : string) :
  glob_match (p +:+ q +:+ "*") s = true → glob_match (p +:+ "*") s = true.
Proof.
  revert s. induction p as [|c p IH]; intros s.
  - intros _. rewrite append_nil. apply glob_match_star_any.
  - rewrite !append_cons. destruct (Ascii.eqb c "*"%char) eqn:Hc.
    + apply Ascii.eqb_eq in Hc as ->.
      induction s as [|d s IHs]; simpl.
      * rewrite !orb_false_r. apply IH.
      * intros [Hm|Hm]%orb_true_iff; apply orb_true_iff.
        -- left. apply IH. exact Hm.
        -- right. apply IHs. exact Hm.
    + simpl. rewrite Hc. destruct s as [|d s]; [discriminate|].
      intros [Hcd Hm]%andb_true_iff. rewrite Hcd. simpl. apply IH. exact Hm.
Qed.

(** X24: base names that extend one another.  When the base name of one
    document class is the base name of another followed by the separator
    and more, every generation of the longer-named class is also listed as
    a generation of the shorter-named class. *)
Theorem get_all_indices_overlap (cls1 cls2 : Document) (x : string) (c : client) :
  _index_name cls2 = _index_name cls1 +:+ VERSION_NAME_SEPARATOR +:+ x →
  ∃ names1 names2,
    get_all_indices cls1 c = (Ok names1, c) ∧
    get_all_indices cls2 c = (Ok names2, c) ∧
    names2 ⊆ names1.
Proof.
  intros Hname. exists (generations cls1 (store c)), (generations cls2 (store c)).
  split; [apply get_all_indices_eq|]. split; [apply get_all_indices_eq|].
  intros n [Hm Hdom]%elem_of_generations. apply elem_of_generations.
  split; [|exact Hdom].
  rewrite Hname in Hm.
  replace (_index_name cls1 +:+ VERSION_NAME_SEPARATOR +:+ "*")
    with ((_index_name cls1 +:+ VERSION_NAME_SEPARATOR) +:+ "*")
    by (rewrite !append_assoc; reflexivity).
  apply (glob_match_shorter_prefix _ (x +:+ VERSION_NAME_SEPARATOR)).
  etrans; [|exact Hm]. f_equal. rewrite !append_assoc. reflexivity.
Qed.

Lemma get_all_indices_overlap_witness :
  ∃ names1 names2,
    get_all_indices (Examples.article_document "blog" 2)
      (Examples.client_of {["blog--v1" := ∅; "blog--drafts--v1" := ∅]})
    = (Ok names1, Examples.client_of {["blog--v1" := ∅; "blog--drafts--v1" := ∅]}) ∧
    get_all_indices (Examples.article_document "blog--drafts" 2)
      (Examples.client_of {["blog--v1" := ∅; "blog--drafts--v1" := ∅]})
    = (Ok names2, Examples.client_of {["blog--v1" := ∅; "blog--drafts--v1" := ∅]}) ∧
    names2 ⊆ names1.
Proof.
  apply (get_all_indices_overlap (Examples.article_document "blog" 2)
           (Examples.article_document "blog--drafts" 2) "drafts"). reflexivity.
Defined.
